(** * FlyweightFifo: the thread-safe software fifo of Software_Fifo_Exercise_Win.cpp

    The template class [Fifo<T, capacity>] is a circular buffer [items] with an
    insertion index, an extraction index and a population counter, protected
    by a Windows CRITICAL_SECTION and signalling through a manual-reset Event.

    The development has four layers:
    - the object state and the Windows primitives the class calls;
    - the three member functions written statement by statement in a small
      state monad (a call either returns, waits for another thread, or leaves
      the defined behaviour of C++);
    - a thread machine that runs the same statements one at a time, so that
      calls of several threads can interleave ([run]);
    - the same machine with a thread keeping the processor for a whole call
      ([run_turns]), for programs whose calls do not overlap.

    The queue is first in, first out and its population stays within the
    capacity for calls that do not overlap, and for [push] against
    [pop_try] however their statements interleave.  [pop] loses both when a
    [push] is preempted between releasing the mutex and signalling the
    Event. *)

From Stdlib Require Import ZArith Lia Bool.
From stdpp Require Import base tactics option list strings.

#[local] Open Scope Z_scope.

(** ** Status codes *)

Inductive status : Set :=
| FIFO_STATUS_SUCCESS
| FIFO_STATUS_FULL
| FIFO_STATUS_EMPTY
| FIFO_STATUS_LOCKED
| FIFO_STATUS_PREEMPTED.

Definition status_code (s : status) : Z :=
  match s with
  | FIFO_STATUS_SUCCESS => 0
  | FIFO_STATUS_FULL => 1
  | FIFO_STATUS_EMPTY => 2
  | FIFO_STATUS_LOCKED => 3
  | FIFO_STATUS_PREEMPTED => 4
  end.

(** The default template argument. *)
Definition FIFO_EXAMPLE_MAX_CAPACITY : Z := 5.

(** [unsigned] is 32 bits wide for the compiler the file targets; arithmetic
    on it wraps around. *)
Definition UINT_RANGE : Z := 2 ^ 32.
Definition wrap (z : Z) : Z := z mod UINT_RANGE.

(** Threads are named by numbers. *)
Definition tid : Set := nat.

(** ** The object *)

Record Fifo (T : Type) : Type := mkFifo {
  DataAvailableEvent : bool;      (* manual-reset Event: signalled or not *)
  mutex : option tid;             (* CRITICAL_SECTION: the owning thread *)
  items : list T;                 (* T items[capacity] *)
  InsertionIndex : Z;
  ExtractionIndex : Z;
  population : Z                  (* volatile unsigned *)
}.

Arguments mkFifo {T}.
Arguments DataAvailableEvent {T}.
Arguments mutex {T}.
Arguments items {T}.
Arguments InsertionIndex {T}.
Arguments ExtractionIndex {T}.
Arguments population {T}.

(** What a call does when no other thread runs in between: it returns a
    value and leaves a state, or it sleeps (on the mutex or on the Event)
    until another thread acts, or it steps outside the array. *)
Inductive result (T A : Type) : Type :=
| Returns (a : A) (f : Fifo T)
| Waits
| Undefined.

Arguments Returns {T A}.
Arguments Waits {T A}.
Arguments Undefined {T A}.

Section FifoClass.

Context {T : Type}.
Variable capacity : Z.

Definition M (A : Type) : Type := Fifo T -> result T A.

Definition ret {A} (a : A) : M A := fun f => Returns a f.

Definition bind {A B} (m : M A) (k : A -> M B) : M B :=
  fun f => match m f with
           | Returns a f' => k a f'
           | Waits => Waits
           | Undefined => Undefined
           end.

#[local] Notation "x <- m ;; k" := (bind m (fun x => k))
  (at level 100, m at next level, right associativity).
#[local] Notation "m ;;; k" := (bind m (fun _ => k))
  (at level 100, right associativity).

(** *** Field accesses *)

Definition load {A} (field : Fifo T -> A) : M A := fun f => Returns (field f) f.

Definition store_InsertionIndex (v : Z) : M unit :=
  fun f => Returns tt (mkFifo (DataAvailableEvent f) (mutex f) (items f)
                              v (ExtractionIndex f) (population f)).

Definition store_ExtractionIndex (v : Z) : M unit :=
  fun f => Returns tt (mkFifo (DataAvailableEvent f) (mutex f) (items f)
                              (InsertionIndex f) v (population f)).

Definition store_population (v : Z) : M unit :=
  fun f => Returns tt (mkFifo (DataAvailableEvent f) (mutex f) (items f)
                              (InsertionIndex f) (ExtractionIndex f) v).

(** [items[i]] read and written; an index outside the array is undefined. *)
Definition items_load (i : Z) : M T :=
  fun f => match items f !! Z.to_nat i with
           | Some x => if 0 <=? i then Returns x f else Undefined
           | None => Undefined
           end.

Definition items_store (i : Z) (x : T) : M unit :=
  fun f => if (0 <=? i) && (i <? Z.of_nat (length (items f)))
           then Returns tt (mkFifo (DataAvailableEvent f) (mutex f)
                                   (<[Z.to_nat i := x]> (items f))
                                   (InsertionIndex f) (ExtractionIndex f)
                                   (population f))
           else Undefined.

(** *** The Windows primitives *)

Definition set_event (b : bool) : M unit :=
  fun f => Returns tt (mkFifo b (mutex f) (items f) (InsertionIndex f)
                              (ExtractionIndex f) (population f)).

Definition SetEvent : M unit := set_event true.
Definition ResetEvent : M unit := set_event false.

(** INFINITE wait on a manual-reset Event: passes when it is signalled and
    leaves it signalled. *)
Definition WaitForSingleObject : M unit :=
  fun f => if DataAvailableEvent f then Returns tt f else Waits.

Definition set_mutex (m : option tid) (f : Fifo T) : Fifo T :=
  mkFifo (DataAvailableEvent f) m (items f) (InsertionIndex f)
         (ExtractionIndex f) (population f).

(** The section is free, or owned by one thread.  No member function enters
    it twice, so the recursion count of the real object stays at one and is
    left out. *)
Definition TryEnterCriticalSection (me : tid) : M bool :=
  fun f => match mutex f with
           | None => Returns true (set_mutex (Some me) f)
           | Some owner => if Nat.eqb owner me then Returns true f
                           else Returns false f
           end.

Definition EnterCriticalSection (me : tid) : M unit :=
  fun f => match mutex f with
           | None => Returns tt (set_mutex (Some me) f)
           | Some owner => if Nat.eqb owner me then Returns tt f else Waits
           end.

(** Leaving a section one does not own is an error of the caller. *)
Definition LeaveCriticalSection (me : tid) : M unit :=
  fun f => match mutex f with
           | Some owner => if Nat.eqb owner me then Returns tt (set_mutex None f)
                           else Undefined
           | None => Undefined
           end.

(** *** Construction *)

(** [Fifo()] zeroes the indices and the population, creates the Event
    unsignalled and the section free; [items] is not initialised and holds
    whatever the memory held, [stale]. *)
Definition Fifo_new (stale : list T) : Fifo T :=
  mkFifo false None stale 0 0 0.

(** *** push *)

Definition push (me : tid) (item : T) : M status :=
  p <- load population ;;
  if capacity <=? p then ret FIFO_STATUS_FULL else
  entered <- TryEnterCriticalSection me ;;
  if negb entered then ret FIFO_STATUS_LOCKED else
  p <- load population ;;
  if capacity <=? p then
    (LeaveCriticalSection me ;;;
     ret FIFO_STATUS_PREEMPTED)
  else
    (i <- load InsertionIndex ;;
     items_store i item ;;;
     i <- load InsertionIndex ;;
     store_InsertionIndex (wrap (i + 1) mod capacity) ;;;
     p <- load population ;;
     store_population (wrap (p + 1)) ;;;
     LeaveCriticalSection me ;;;
     SetEvent ;;;
     ret FIFO_STATUS_SUCCESS).

(** *** pop_try *)

(** [itemPtr] is the content of the caller's location on entry; the call
    returns the status and the content of the location on exit. *)
Definition pop_try (me : tid) (itemPtr : T) : M (status * T) :=
  p <- load population ;;
  if p =? 0 then ret (FIFO_STATUS_EMPTY, itemPtr) else
  EnterCriticalSection me ;;;
  e <- load ExtractionIndex ;;
  x <- items_load e ;;
  let itemPtr := x in
  e <- load ExtractionIndex ;;
  store_ExtractionIndex (wrap (e + 1) mod capacity) ;;;
  p <- load population ;;
  store_population (wrap (p - 1)) ;;;
  p <- load population ;;
  (if p =? 0 then ResetEvent else ret tt) ;;;
  LeaveCriticalSection me ;;;
  ret (FIFO_STATUS_SUCCESS, itemPtr).

(** *** pop *)

Definition pop (me : tid) (itemPtr : T) : M T :=
  p <- load population ;;
  (if p =? 0 then WaitForSingleObject else ret tt) ;;;
  EnterCriticalSection me ;;;
  e <- load ExtractionIndex ;;
  x <- items_load e ;;
  let itemPtr := x in
  e <- load ExtractionIndex ;;
  store_ExtractionIndex (wrap (e + 1) mod capacity) ;;;
  p <- load population ;;
  store_population (wrap (p - 1)) ;;;
  p <- load population ;;
  (if p =? 0 then ResetEvent else ret tt) ;;;
  LeaveCriticalSection me ;;;
  ret itemPtr.

Definition getPopulation : M Z := load population.

(** ** Calls and what they return *)

(** A call as the test rig issues it.  A pop names the content its output
    location has on entry. *)
Inductive call : Type :=
| CallPush (item : T)
| CallPopTry (itemPtr : T)
| CallPop (itemPtr : T).

(** What came back from a call. *)
Inductive event : Type :=
| Pushed (item : T) (st : status)
| TriedPop (st : status) (value : T)
| Popped (value : T).

Definition pushed_of (ev : event) : option T :=
  match ev with
  | Pushed item FIFO_STATUS_SUCCESS => Some item
  | _ => None
  end.

Definition popped_of (ev : event) : option T :=
  match ev with
  | TriedPop FIFO_STATUS_SUCCESS value => Some value
  | Popped value => Some value
  | _ => None
  end.

(** The values pushed with success and the values popped with success, in
    the order of the calls. *)
Definition pushed (tr : list event) : list T := omap pushed_of tr.
Definition popped (tr : list event) : list T := omap popped_of tr.

(** The live slots: [population] slots from [ExtractionIndex] on, around the
    end of the array. *)
Definition contents (f : Fifo T) : list T :=
  take (Z.to_nat (population f))
       (drop (Z.to_nat (ExtractionIndex f)) (items f ++ items f)).

(** The object as its declaration types it: [capacity] slots, both indices
    inside the array, the counter an [unsigned]. *)
Record fifo_wf (f : Fifo T) : Prop := {
  wf_items : Z.of_nat (length (items f)) = capacity;
  wf_insertion : 0 <= InsertionIndex f < capacity;
  wf_extraction : 0 <= ExtractionIndex f < capacity;
  wf_population : 0 <= population f < UINT_RANGE
}.

(** ** Threads, statement by statement *)

(** Where a thread stands: between calls, or before one statement of a
    member function.  Every point carries the call's argument. *)
Inductive pc : Type :=
| Idle
| PushEntry (item : T)        (* if (population >= capacity) return FULL *)
| PushTryEnter (item : T)     (* if (TryEnterCriticalSection == 0) return LOCKED *)
| PushRecheck (item : T)      (* if (population >= capacity) *)
| PushPreempted (item : T)    (* LeaveCriticalSection; return PREEMPTED *)
| PushStore (item : T)        (* items[InsertionIndex] = item *)
| PushBump (item : T)         (* InsertionIndex = (InsertionIndex + 1) % capacity *)
| PushIncrement (item : T)    (* population++ *)
| PushLeave (item : T)        (* LeaveCriticalSection *)
| PushSetEvent (item : T)     (* SetEvent; return SUCCESS *)
| TryEntry (itemPtr : T)      (* if (population == 0) return EMPTY *)
| TryEnter (itemPtr : T)      (* EnterCriticalSection *)
| TryRead (itemPtr : T)       (* *itemPtr = items[ExtractionIndex] *)
| TryBump (itemPtr : T)       (* ExtractionIndex = (ExtractionIndex + 1) % capacity *)
| TryDecrement (itemPtr : T)  (* population-- *)
| TryCheck (itemPtr : T)      (* if (population == 0) *)
| TryReset (itemPtr : T)      (* ResetEvent *)
| TryLeave (itemPtr : T)      (* LeaveCriticalSection; return SUCCESS *)
| PopEntry (itemPtr : T)      (* if (population == 0) *)
| PopWait (itemPtr : T)       (* WaitForSingleObject *)
| PopEnter (itemPtr : T)      (* EnterCriticalSection *)
| PopRead (itemPtr : T)       (* *itemPtr = items[ExtractionIndex] *)
| PopBump (itemPtr : T)       (* ExtractionIndex = (ExtractionIndex + 1) % capacity *)
| PopDecrement (itemPtr : T)  (* population-- *)
| PopCheck (itemPtr : T)      (* if (population == 0) *)
| PopReset (itemPtr : T)      (* ResetEvent *)
| PopLeave (itemPtr : T).     (* LeaveCriticalSection; return *)

Record thread : Type := mkThread {
  todo : list call;           (* the calls still to make *)
  at_pc : pc;
  done : list event           (* what the calls made so far returned *)
}.

Definition goto (th : thread) (l : pc) : thread :=
  mkThread (todo th) l (done th).

Definition returned (th : thread) (ev : event) : thread :=
  mkThread (todo th) Idle (done th ++ [ev]).

Definition entry (c : call) : pc :=
  match c with
  | CallPush item => PushEntry item
  | CallPopTry itemPtr => TryEntry itemPtr
  | CallPop itemPtr => PopEntry itemPtr
  end.

(** One statement of thread [me].  [Waits] means the thread cannot move now:
    it has nothing left to do, or it sleeps on the mutex or on the Event. *)
Definition thread_step (me : tid) (th : thread) : M thread :=
  match at_pc th with
  | Idle =>
      match todo th with
      | [] => fun _ => Waits
      | c :: rest => ret (mkThread rest (entry c) (done th))
      end
  | PushEntry item =>
      p <- load population ;;
      if capacity <=? p then ret (returned th (Pushed item FIFO_STATUS_FULL))
      else ret (goto th (PushTryEnter item))
  | PushTryEnter item =>
      entered <- TryEnterCriticalSection me ;;
      if negb entered then ret (returned th (Pushed item FIFO_STATUS_LOCKED))
      else ret (goto th (PushRecheck item))
  | PushRecheck item =>
      p <- load population ;;
      if capacity <=? p then ret (goto th (PushPreempted item))
      else ret (goto th (PushStore item))
  | PushPreempted item =>
      LeaveCriticalSection me ;;;
      ret (returned th (Pushed item FIFO_STATUS_PREEMPTED))
  | PushStore item =>
      i <- load InsertionIndex ;;
      items_store i item ;;;
      ret (goto th (PushBump item))
  | PushBump item =>
      i <- load InsertionIndex ;;
      store_InsertionIndex (wrap (i + 1) mod capacity) ;;;
      ret (goto th (PushIncrement item))
  | PushIncrement item =>
      p <- load population ;;
      store_population (wrap (p + 1)) ;;;
      ret (goto th (PushLeave item))
  | PushLeave item =>
      LeaveCriticalSection me ;;;
      ret (goto th (PushSetEvent item))
  | PushSetEvent item =>
      SetEvent ;;;
      ret (returned th (Pushed item FIFO_STATUS_SUCCESS))
  | TryEntry itemPtr =>
      p <- load population ;;
      if p =? 0 then ret (returned th (TriedPop FIFO_STATUS_EMPTY itemPtr))
      else ret (goto th (TryEnter itemPtr))
  | TryEnter itemPtr =>
      EnterCriticalSection me ;;;
      ret (goto th (TryRead itemPtr))
  | TryRead _ =>
      e <- load ExtractionIndex ;;
      x <- items_load e ;;
      ret (goto th (TryBump x))
  | TryBump itemPtr =>
      e <- load ExtractionIndex ;;
      store_ExtractionIndex (wrap (e + 1) mod capacity) ;;;
      ret (goto th (TryDecrement itemPtr))
  | TryDecrement itemPtr =>
      p <- load population ;;
      store_population (wrap (p - 1)) ;;;
      ret (goto th (TryCheck itemPtr))
  | TryCheck itemPtr =>
      p <- load population ;;
      if p =? 0 then ret (goto th (TryReset itemPtr))
      else ret (goto th (TryLeave itemPtr))
  | TryReset itemPtr =>
      ResetEvent ;;;
      ret (goto th (TryLeave itemPtr))
  | TryLeave itemPtr =>
      LeaveCriticalSection me ;;;
      ret (returned th (TriedPop FIFO_STATUS_SUCCESS itemPtr))
  | PopEntry itemPtr =>
      p <- load population ;;
      if p =? 0 then ret (goto th (PopWait itemPtr))
      else ret (goto th (PopEnter itemPtr))
  | PopWait itemPtr =>
      WaitForSingleObject ;;;
      ret (goto th (PopEnter itemPtr))
  | PopEnter itemPtr =>
      EnterCriticalSection me ;;;
      ret (goto th (PopRead itemPtr))
  | PopRead _ =>
      e <- load ExtractionIndex ;;
      x <- items_load e ;;
      ret (goto th (PopBump x))
  | PopBump itemPtr =>
      e <- load ExtractionIndex ;;
      store_ExtractionIndex (wrap (e + 1) mod capacity) ;;;
      ret (goto th (PopDecrement itemPtr))
  | PopDecrement itemPtr =>
      p <- load population ;;
      store_population (wrap (p - 1)) ;;;
      ret (goto th (PopCheck itemPtr))
  | PopCheck itemPtr =>
      p <- load population ;;
      if p =? 0 then ret (goto th (PopReset itemPtr))
      else ret (goto th (PopLeave itemPtr))
  | PopReset itemPtr =>
      ResetEvent ;;;
      ret (goto th (PopLeave itemPtr))
  | PopLeave itemPtr =>
      LeaveCriticalSection me ;;;
      ret (returned th (Popped itemPtr))
  end.

(** A thread running with nobody in between, for at most [n] statements or
    until its call returns. *)
Fixpoint alone (n : nat) (me : tid) (th : thread) : M thread :=
  match n with
  | O => ret th
  | S n' =>
      th' <- thread_step me th ;;
      match at_pc th' with
      | Idle => ret th'
      | _ => alone n' me th'
      end
  end.

(** The whole program: the object and the threads that share it. *)
Record system : Type := mkSystem {
  shared : Fifo T;
  threads : list thread
}.

(** Thread [t] is given the processor for one statement.  A thread that
    cannot move leaves everything as it is; [None] is undefined behaviour. *)
Definition sys_step (t : tid) (s : system) : option system :=
  match threads s !! t with
  | None => Some s
  | Some th =>
      match thread_step t th (shared s) with
      | Returns th' f' => Some (mkSystem f' (<[t := th']> (threads s)))
      | Waits => Some s
      | Undefined => None
      end
  end.

(** A schedule names the thread that moves next, step after step. *)
Fixpoint run (sched : list tid) (s : system) : option system :=
  match sched with
  | [] => Some s
  | t :: sched' =>
      match sys_step t s with
      | Some s' => run sched' s'
      | None => None
      end
  end.

(** A thread that will make the calls [cs]. *)
Definition spawn (cs : list call) : thread := mkThread cs Idle [].

Definition finished (th : thread) : bool :=
  match todo th, at_pc th with
  | [], Idle => true
  | _, _ => false
  end.

(** The statuses the pushes of a thread returned. *)
Definition push_status (ev : event) : option status :=
  match ev with
  | Pushed _ st => Some st
  | _ => None
  end.

Definition succeeded (th : thread) : bool :=
  existsb (fun ev => match push_status ev with
                     | Some FIFO_STATUS_SUCCESS => true
                     | _ => false
                     end) (done th).

(** ** Calls one at a time *)

(** A thread keeps the processor until its call returns or it has to sleep:
    at most [n] statements, stopping where the thread cannot move.  [None] is
    undefined behaviour. *)
Fixpoint burst (n : nat) (me : tid) (th : thread) (f : Fifo T)
  : option (thread * Fifo T) :=
  match n with
  | O => Some (th, f)
  | S n' =>
      match thread_step me th f with
      | Returns th' f' =>
          match at_pc th' with
          | Idle => Some (th', f')
          | _ => burst n' me th' f'
          end
      | Waits => Some (th, f)
      | Undefined => None
      end
  end.

(** No call is longer: the start of the call and the nine statements of
    [pop]. *)
Definition CALL_STATEMENTS : nat := 10.

(** Thread [t] gets the processor and keeps it for a whole call.  A [pop]
    that finds nothing sleeps in WaitForSingleObject and goes on from there
    at a later turn, once the Event is signalled.  The turn yields what
    returned during it. *)
Definition turn (t : tid) (s : system) : option (system * list event) :=
  match threads s !! t with
  | None => Some (s, [])
  | Some th =>
      match burst CALL_STATEMENTS t th (shared s) with
      | Some (th', f') =>
          Some (mkSystem f' (<[t := th']> (threads s)),
                drop (length (done th)) (done th'))
      | None => None
      end
  end.

(** The calls of a whole program, one at a time in the order [sched] gives
    the threads their turns, with the events in the order they returned. *)
Fixpoint run_turns (sched : list tid) (s : system)
  : option (system * list event) :=
  match sched with
  | [] => Some (s, [])
  | t :: sched' =>
      match turn t s with
      | Some (s', evs) =>
          match run_turns sched' s' with
          | Some (s'', tr) => Some (s'', evs ++ tr)
          | None => None
          end
      | None => None
      end
  end.

(** A fresh queue and one thread for each list of calls in [pool]. *)
Definition boot (stale : list T) (pool : list (list call)) : system :=
  mkSystem (Fifo_new stale) (map spawn pool).

(** A state the object can be in between calls that ran one at a time. *)
Definition reachable (f : Fifo T) : Prop :=
  exists (stale : list T) (pool : list (list call)) (sched : list tid)
         (s : system) (tr : list event),
    Z.of_nat (length stale) = capacity /\
    run_turns sched (boot stale pool) = Some (s, tr) /\
    shared s = f.

(** Between turns a thread is between calls or asleep in [pop]. *)
Definition resting (th : thread) : bool :=
  match at_pc th with
  | Idle | PopWait _ => true
  | _ => false
  end.

(** ** What holds between calls *)

(** Between calls that ran one after another the object is well formed, the
    population is at most the capacity, the mutex is free, the Event is
    signalled exactly when the queue holds something, and the insertion
    index is the extraction index plus the population, around the array. *)
Record fifo_inv (f : Fifo T) : Prop := {
  inv_wf : fifo_wf f;
  inv_bound : population f <= capacity;
  inv_free : mutex f = None;
  inv_event : DataAvailableEvent f = negb (population f =? 0);
  inv_insertion :
    InsertionIndex f = (ExtractionIndex f + population f) mod capacity
}.

(** The program between turns. *)
Record coop_inv (s : system) : Prop := {
  coop_fifo : fifo_inv (shared s);
  coop_threads : Forall (fun th => resting th = true) (threads s)
}.

(** ** Two writers and one free slot *)

(** Two threads, numbered 0 and 1, each about to push one item. *)
Definition two_producers (f : Fifo T) (a b : T) : system :=
  mkSystem f [spawn [CallPush a]; spawn [CallPush b]].

(** How far such a thread has come. *)
Inductive stage : Set :=
| SStart | SEntry | STryEnter | SRecheck | SPreempted | SStore | SBump
| SIncrement | SLeave | SSetEvent
| SDone (st : status).

Definition thread_at (x : T) (s : stage) : thread :=
  match s with
  | SStart => spawn [CallPush x]
  | SEntry => mkThread [] (PushEntry x) []
  | STryEnter => mkThread [] (PushTryEnter x) []
  | SRecheck => mkThread [] (PushRecheck x) []
  | SPreempted => mkThread [] (PushPreempted x) []
  | SStore => mkThread [] (PushStore x) []
  | SBump => mkThread [] (PushBump x) []
  | SIncrement => mkThread [] (PushIncrement x) []
  | SLeave => mkThread [] (PushLeave x) []
  | SSetEvent => mkThread [] (PushSetEvent x) []
  | SDone st => mkThread [] Idle [Pushed x st]
  end.

(** The thread owns the mutex. *)
Definition holds (s : stage) : bool :=
  match s with
  | SRecheck | SPreempted | SStore | SBump | SIncrement | SLeave => true
  | _ => false
  end.

(** The thread has added its one to the population. *)
Definition counted (s : stage) : bool :=
  match s with
  | SLeave | SSetEvent | SDone FIFO_STATUS_SUCCESS => true
  | _ => false
  end.

(** The thread is between the second test and its increment. *)
Definition writing (s : stage) : bool :=
  match s with
  | SStore | SBump | SIncrement => true
  | _ => false
  end.

(** The thread saw the queue full. *)
Definition lost (s : stage) : bool :=
  match s with
  | SPreempted | SDone FIFO_STATUS_FULL | SDone FIFO_STATUS_PREEMPTED => true
  | _ => false
  end.

(** The thread got the mutex and is not on the way to PREEMPTED. *)
Definition winning (s : stage) : bool :=
  match s with
  | SRecheck | SStore | SBump | SIncrement | SLeave | SSetEvent
  | SDone FIFO_STATUS_SUCCESS => true
  | _ => false
  end.

Definition is_locked (s : stage) : bool :=
  match s with
  | SDone FIFO_STATUS_LOCKED => true
  | _ => false
  end.

Definition is_empty (s : stage) : bool :=
  match s with
  | SDone FIFO_STATUS_EMPTY => true
  | _ => false
  end.

(** The pairs of stages the two threads can be in together. *)
Definition race_ok (sa sb : stage) : bool :=
  negb (holds sa && holds sb) &&
  negb (counted sa && counted sb) &&
  implb (writing sa) (negb (counted sb)) &&
  implb (writing sb) (negb (counted sa)) &&
  implb (lost sa) (counted sb) &&
  implb (lost sb) (counted sa) &&
  implb (is_locked sa) (winning sb && negb (lost sb)) &&
  implb (is_locked sb) (winning sa && negb (lost sa)) &&
  negb (is_empty sa) && negb (is_empty sb).

Definition owner (sa sb : stage) : option tid :=
  if holds sa then Some 0%nat else if holds sb then Some 1%nat else None.

(** The stage after one statement, given whether the queue is full and
    whether the other thread owns the mutex. *)
Definition stage_step (s : stage) (full other_holds : bool) : stage :=
  match s with
  | SStart => SEntry
  | SEntry => if full then SDone FIFO_STATUS_FULL else STryEnter
  | STryEnter => if other_holds then SDone FIFO_STATUS_LOCKED else SRecheck
  | SRecheck => if full then SPreempted else SStore
  | SPreempted => SDone FIFO_STATUS_PREEMPTED
  | SStore => SBump
  | SBump => SIncrement
  | SIncrement => SLeave
  | SLeave => SSetEvent
  | SSetEvent => SDone FIFO_STATUS_SUCCESS
  | SDone st => SDone st
  end.

(** The statements a thread has left at most. *)
Definition remaining (s : stage) : nat :=
  match s with
  | SStart => 9
  | SEntry => 8
  | STryEnter => 7
  | SRecheck => 6
  | SStore => 5
  | SBump => 4
  | SIncrement => 3
  | SLeave => 2
  | SSetEvent => 1
  | SPreempted => 1
  | SDone _ => 0
  end.

(** The state of the race: the two threads at stages [sa] and [sb], the
    mutex with the thread that holds it, and the population one below the
    capacity until one of the two has counted. *)
Record race_inv (s : system) (a b : T) (sa sb : stage) : Prop := {
  race_threads : threads s = [thread_at a sa; thread_at b sb];
  race_wf : fifo_wf (shared s);
  race_mutex : mutex (shared s) = owner sa sb;
  race_population :
    population (shared s) =
      capacity - 1 + (if counted sa || counted sb then 1 else 0);
  race_stages : race_ok sa sb = true
}.

(** ** One writer and one reader *)

(** One thread that pushes the items [xs], one thread that calls [pop_try]
    once for each content of [vs].  The writer is thread 0. *)
Definition producer_consumer (stale xs vs : list T) : system :=
  mkSystem (Fifo_new stale)
           [spawn (map CallPush xs); spawn (map CallPopTry vs)].

Definition writer_pc (l : pc) : bool :=
  match l with
  | Idle | PushEntry _ | PushTryEnter _ | PushRecheck _ | PushPreempted _
  | PushStore _ | PushBump _ | PushIncrement _ | PushLeave _
  | PushSetEvent _ => true
  | _ => false
  end.

Definition reader_pc (l : pc) : bool :=
  match l with
  | Idle | TryEntry _ | TryEnter _ | TryRead _ | TryBump _ | TryDecrement _
  | TryCheck _ | TryReset _ | TryLeave _ => true
  | _ => false
  end.

(** The points inside the critical section. *)
Definition writer_holds (l : pc) : bool :=
  match l with
  | PushRecheck _ | PushPreempted _ | PushStore _ | PushBump _
  | PushIncrement _ | PushLeave _ => true
  | _ => false
  end.

Definition reader_holds (l : pc) : bool :=
  match l with
  | TryRead _ | TryBump _ | TryDecrement _ | TryCheck _ | TryReset _
  | TryLeave _ => true
  | _ => false
  end.

(** Past the second test of [push]: there is room, and nobody else can take
    it. *)
Definition needs_room (l : pc) : bool :=
  match l with
  | PushStore _ | PushBump _ | PushIncrement _ => true
  | _ => false
  end.

(** Past the test of [pop_try]: there is an item, and nobody else can take
    it. *)
Definition needs_item (l : pc) : bool :=
  match l with
  | TryEnter _ | TryRead _ | TryBump _ | TryDecrement _ => true
  | _ => false
  end.

(** The item a [push] has counted and not yet reported. *)
Definition in_flight_push (l : pc) : list T :=
  match l with
  | PushLeave x | PushSetEvent x => [x]
  | _ => []
  end.

(** The item a [pop_try] has taken and not yet reported. *)
Definition in_flight_pop (l : pc) : list T :=
  match l with
  | TryCheck x | TryReset x | TryLeave x => [x]
  | _ => []
  end.

(** The item a [push] has written to its slot and not yet counted. *)
Definition stored (l : pc) : option T :=
  match l with
  | PushBump x | PushIncrement x => Some x
  | _ => None
  end.

(** The item a [pop_try] has read and not yet taken off the count. *)
Definition fetched (l : pc) : option T :=
  match l with
  | TryBump x | TryDecrement x => Some x
  | _ => None
  end.

(** Between the bump of an index and the update of the population the index
    is one ahead of the count; these give the index the count goes with. *)
Definition insertion_base (l : pc) (i : Z) : Z :=
  match l with
  | PushIncrement _ => (i - 1) mod capacity
  | _ => i
  end.

Definition extraction_base (l : pc) (e : Z) : Z :=
  match l with
  | TryDecrement _ => (e - 1) mod capacity
  | _ => e
  end.

(** What holds at every statement of a writer at [wl] and a reader at [rl],
    however their statements interleave. *)
Record duet_inv (s : system) (xs vs : list T) (wl rl : pc)
    (wlog rlog : list event) : Prop := {
  duet_threads :
    threads s = [ mkThread (map CallPush xs) wl wlog;
                  mkThread (map CallPopTry vs) rl rlog ];
  duet_writer : writer_pc wl = true;
  duet_reader : reader_pc rl = true;
  duet_items : Z.of_nat (length (items (shared s))) = capacity;
  duet_insertion : 0 <= InsertionIndex (shared s) < capacity;
  duet_extraction : 0 <= ExtractionIndex (shared s) < capacity;
  duet_population : 0 <= population (shared s) <= capacity;
  duet_mutex :
    mutex (shared s) =
      if writer_holds wl then Some 0%nat
      else if reader_holds rl then Some 1%nat else None;
  duet_exclusion : writer_holds wl && reader_holds rl = false;
  duet_room : needs_room wl = true -> population (shared s) < capacity;
  duet_item : needs_item rl = true -> 0 < population (shared s);
  duet_ring :
    insertion_base wl (InsertionIndex (shared s)) =
      (extraction_base rl (ExtractionIndex (shared s)) + population (shared s))
        mod capacity;
  duet_stored :
    forall x, stored wl = Some x ->
      items (shared s)
        !! Z.to_nat (insertion_base wl (InsertionIndex (shared s))) = Some x;
  duet_fetched :
    forall x, fetched rl = Some x ->
      items (shared s)
        !! Z.to_nat (extraction_base rl (ExtractionIndex (shared s))) = Some x;
  duet_fifo :
    pushed wlog ++ in_flight_push wl =
      popped rlog ++ in_flight_pop rl ++
      take (Z.to_nat (population (shared s)))
           (drop (Z.to_nat (extraction_base rl (ExtractionIndex (shared s))))
                 (items (shared s) ++ items (shared s)))
}.

End FifoClass.

Arguments call : clear implicits.
Arguments event : clear implicits.
Arguments pc : clear implicits.
Arguments thread : clear implicits.
Arguments system : clear implicits.


(** ** Any number of threads *)

Section AnyThreads.

Context {T : Type}.
Variable capacity : Z.

(** The thread is between an EnterCriticalSection (or a
    TryEnterCriticalSection that succeeded) and its
    LeaveCriticalSection. *)
Definition in_section (l : pc T) : bool :=
  match l with
  | PushRecheck _ | PushPreempted _ | PushStore _ | PushBump _
  | PushIncrement _ | PushLeave _
  | TryRead _ | TryBump _ | TryDecrement _ | TryCheck _ | TryReset _
  | TryLeave _
  | PopRead _ | PopBump _ | PopDecrement _ | PopCheck _ | PopReset _
  | PopLeave _ => true
  | _ => false
  end.

(** The object is as its declaration types it, and the mutex is owned by
    the thread that is inside the section and by no other. *)
Record safe_inv (s : system T) : Prop := {
  safe_wf : fifo_wf capacity (shared s);
  safe_owner :
    forall (t : tid) (th : thread T),
      threads s !! t = Some th ->
      (in_section (at_pc th) = true <-> mutex (shared s) = Some t);
  safe_owned :
    forall o : tid, mutex (shared s) = Some o -> is_Some (threads s !! o)
}.

(** Why a thread cannot move: it has made all its calls, or it sleeps in
    the wait of [pop] on the unsignalled Event, or it waits for the mutex
    that thread [o] owns. *)
Inductive blocked (t : tid) (th : thread T) (f : Fifo T) : Prop :=
| BlockedFinished : finished th = true -> blocked t th f
| BlockedOnEvent (itemPtr : T) :
    at_pc th = PopWait itemPtr -> DataAvailableEvent f = false ->
    blocked t th f
| BlockedOnMutex (o : tid) :
    in_section (at_pc th) = false -> mutex f = Some o -> o <> t ->
    blocked t th f.

End AnyThreads.

(** ** The test rig *)

(** [Fifo<int> int_test_fifo] of [main], with the default capacity.  The
    slots start with whatever the stack held; five recognisable values stand
    for it. *)
Definition rig_stale : list Z := [-1; -2; -3; -4; -5].

Definition int_test_fifo : Fifo Z := Fifo_new rig_stale.

Definition writer : tid := 0%nat.
Definition reader : tid := 1%nat.

(** The calls of [main], in order, with the value of [value] each pop
    starts from; [main] is one thread. *)
Definition main_calls : list (call Z) :=
  [ CallPopTry (-1);
    CallPush 7; CallPush 8;
    CallPopTry 1000;
    CallPush 9; CallPush 10; CallPush 11; CallPush 12; CallPush 13;
    CallPopTry 2000; CallPopTry 3000; CallPopTry 4000; CallPopTry 5000;
    CallPopTry 6000; CallPopTry 7000 ].

Definition main_system : system Z := boot rig_stale [main_calls].

Definition main_schedule : list tid := replicate 15 0%nat.

(** [pop] called first, on the empty queue, by the reader; then the writer
    pushes 7 and 8; the reader gets the processor back twice. *)
Definition sleeper_system : system Z :=
  boot rig_stale [[CallPush 7; CallPush 8]; [CallPop 1000; CallPop 2000]].

Definition sleeper_schedule : list tid :=
  [reader; writer; reader; writer; reader].

(** One writer that pushes 7 once, one reader that calls [pop_try] and then
    [pop]. *)
Definition late_signal_system : system Z :=
  mkSystem int_test_fifo
           [spawn [CallPush 7]; spawn [CallPopTry 1000; CallPop 2000]].

(** The writer runs [push] up to and including LeaveCriticalSection and is
    preempted before SetEvent; the reader runs a whole [pop_try]; the writer
    finishes with SetEvent; the reader runs a whole [pop]. *)
Definition late_signal_schedule : list tid :=
  replicate 8 writer ++ replicate 9 reader ++ [writer] ++ replicate 9 reader.

(** The queue after [push 7] alone. *)
Definition one_item_fifo : Fifo Z :=
  mkFifo true None [7; -2; -3; -4; -5] 1 0 1.

(** A queue with four of its five slots taken. *)
Definition four_item_fifo : Fifo Z :=
  mkFifo true None [1; 2; 3; 4; -5] 4 0 4.

(** A full queue. *)
Definition five_item_fifo : Fifo Z :=
  mkFifo true None [1; 2; 3; 4; 5] 0 0 5.

(** A queue with one slot left whose mutex the reader holds. *)
Definition held_fifo : Fifo Z :=
  mkFifo true (Some reader) [1; 2; 3; 4; -5] 4 0 4.

(** An empty queue whose Event was left signalled: the state after the run
    of [late_signal_system] up to the writer's SetEvent. *)
Definition stale_signal_fifo : Fifo Z :=
  mkFifo true None [7; -2; -3; -4; -5] 1 1 0.

(** ** Schedules of the two writers *)

(** The stages of the two writers along a schedule, from the stages alone:
    who has counted and who holds the mutex decide every branch. *)
Fixpoint follow_stages (sched : list tid) (sa sb : stage) : stage * stage :=
  match sched with
  | [] => (sa, sb)
  | O :: sched' =>
      follow_stages sched'
        (stage_step sa (counted sa || counted sb) (holds sb)) sb
  | S O :: sched' =>
      follow_stages sched' sa
        (stage_step sb (counted sa || counted sb) (holds sa))
  | _ :: sched' => follow_stages sched' sa sb
  end.

(** Thread 0 passes the first test and is preempted; thread 1 runs a whole
    [push]; thread 0 goes on. *)
Definition preempted_schedule : list tid :=
  [0; 0]%nat ++ replicate 9 1%nat ++ [0; 0; 0]%nat.

(** Thread 1 runs [push] up to and including TryEnterCriticalSection;
    thread 0 runs a whole [push]; thread 1 goes on. *)
Definition locked_schedule : list tid :=
  [1; 1; 1]%nat ++ [0; 0; 0]%nat ++ replicate 6 1%nat.

(** Thread 1 runs a whole [push]; then thread 0 does. *)
Definition full_schedule : list tid :=
  replicate 9 1%nat ++ [0; 0]%nat.

(** ** The status names *)

Definition status_Strings : list string :=
  [ "FIFO_STATUS_SUCCESS"; "FIFO_STATUS_FULL"; "FIFO_STATUS_EMPTY";
    "FIFO_STATUS_LOCKED"; "FIFO_STATUS_PREEMPTED" ]%string.

(** [status_Strings[status]]; an index past the table is undefined. *)
Definition status_name (st : status) : M (T := Z) string :=
  fun f => match status_Strings !! Z.to_nat (status_code st) with
           | Some name => Returns name f
           | None => Undefined
           end.

(** ** main *)

(** What [main] prints after a test: the number of the test, the name of
    the status, the population, and [value]. *)
Record report : Set := mkReport {
  test_number : Z;
  status_shown : string;
  population_shown : Z;
  value_shown : Z
}.

(** The two blocks [main] is made of, with the assignment to [value] the
    block starts with; the first pop leaves [value] as it is. *)
Inductive test_block : Set :=
| PopTryBlock (assign : option Z)
| PushBlock (assign : Z).

Definition run_block (testNum value : Z) (blk : test_block)
  : M (T := Z) (Z * report) :=
  match blk with
  | PopTryBlock assign =>
      let value := default value assign in
      bind (pop_try FIFO_EXAMPLE_MAX_CAPACITY writer value) (fun r =>
      let status := fst r in
      let value := snd r in
      bind (status_name status) (fun name =>
      bind getPopulation (fun p =>
      ret (value, mkReport testNum name p value))))
  | PushBlock assign =>
      let value := assign in
      bind (push FIFO_EXAMPLE_MAX_CAPACITY writer value) (fun status =>
      bind (status_name status) (fun name =>
      bind getPopulation (fun p =>
      ret (value, mkReport testNum name p value))))
  end.

(** The blocks in order; [testNum] is incremented at the start of each. *)
Fixpoint run_blocks (testNum value : Z) (blks : list test_block)
  : M (T := Z) (list report) :=
  match blks with
  | [] => ret []
  | blk :: blks' =>
      let testNum := wrap (testNum + 1) in
      bind (run_block testNum value blk) (fun r =>
      bind (run_blocks testNum (fst r) blks') (fun out =>
      ret (snd r :: out)))
  end.

Definition main_blocks : list test_block :=
  [ PopTryBlock None;
    PushBlock 7; PushBlock 8;
    PopTryBlock (Some 1000);
    PushBlock 9; PushBlock 10; PushBlock 11; PushBlock 12; PushBlock 13;
    PopTryBlock (Some 2000); PopTryBlock (Some 3000); PopTryBlock (Some 4000);
    PopTryBlock (Some 5000); PopTryBlock (Some 6000);
    PopTryBlock (Some 7000) ].

(** [main] on a stack whose slots hold [stale]: the population shown at
    start-up, the reports of the tests, and the return value. *)
Definition main (stale : list Z) : result Z (Z * list report * Z) :=
  bind getPopulation (fun currentPop =>
  bind (run_blocks 0 (-1) main_blocks) (fun out =>
  ret (currentPop, out, 1))) (Fifo_new stale).

(** * Properties *)

Section Properties.

Context {T : Type}.
Variable capacity : Z.

(** The template argument is an [unsigned] and bounds an array. *)
Hypothesis capacity_range : 0 < capacity < UINT_RANGE.

(** Runs the monad on the state at hand. *)
Ltac run_call :=
  unfold push, pop_try, pop, thread_step, bind, ret, load,
    store_InsertionIndex, store_ExtractionIndex, store_population,
    items_load, items_store, SetEvent, ResetEvent, set_event,
    WaitForSingleObject, TryEnterCriticalSection, EnterCriticalSection,
    LeaveCriticalSection, set_mutex; cbn.

Lemma wrap_small z : 0 <= z < UINT_RANGE -> wrap z = z.
Proof. intros H. unfold wrap. apply Z.mod_small; exact H. Qed.

Lemma uint_range_value : UINT_RANGE = 4294967296.
Proof. reflexivity. Qed.

(** ** The rejections *)

(** C3: on a queue whose population equals the capacity [push] returns
    FIFO_STATUS_FULL, and on a queue whose population is zero [pop_try]
    returns FIFO_STATUS_EMPTY; both return (they do not wait, whoever owns
    the mutex) and leave the object exactly as it was, so nothing is stored
    and nothing is removed. *)
Theorem push_full_pop_try_empty (me : tid) (x : T) (f : Fifo T) :
  (population f = capacity ->
   push capacity me x f = Returns FIFO_STATUS_FULL f) /\
  (population f = 0 ->
   pop_try capacity me x f = Returns (FIFO_STATUS_EMPTY, x) f).
Proof.
  split; intros Hp; run_call; rewrite Hp.
  - rewrite Z.leb_refl. reflexivity.
  - reflexivity.
Qed.

(** C10: with a population of zero [pop_try] returns FIFO_STATUS_EMPTY, the
    caller's location keeps the content it had, and the object (slots,
    indices, population, Event, mutex) is the same afterwards; in the thread
    machine the call is the single statement that reads the population. *)
Theorem pop_try_empty_frame (me : tid) (itemPtr : T) (f : Fifo T)
    (rest : list (call T)) (log : list (event T)) :
  population f = 0 ->
  pop_try capacity me itemPtr f = Returns (FIFO_STATUS_EMPTY, itemPtr) f /\
  thread_step capacity me (mkThread rest (TryEntry itemPtr) log) f =
    Returns (mkThread rest Idle (log ++ [TriedPop FIFO_STATUS_EMPTY itemPtr])) f.
Proof.
  intros Hp. split; run_call; rewrite Hp; reflexivity.
Qed.

(** ** The two dequeue paths *)

Lemma slot_in_range (f : Fifo T) (i : Z) :
  Z.of_nat (length (items f)) = capacity -> 0 <= i < capacity ->
  exists x, items f !! Z.to_nat i = Some x.
Proof.
  intros Hl Hi. apply lookup_lt_is_Some. lia.
Qed.

Lemma pop_try_returns (me : tid) (itemPtr : T) (f : Fifo T) :
  fifo_wf capacity f -> mutex f = None -> 0 < population f ->
  exists x,
    items f !! Z.to_nat (ExtractionIndex f) = Some x /\
    pop_try capacity me itemPtr f =
      Returns (FIFO_STATUS_SUCCESS, x)
        (mkFifo (if population f - 1 =? 0 then false else DataAvailableEvent f)
                None (items f) (InsertionIndex f)
                ((ExtractionIndex f + 1) mod capacity)
                (population f - 1)).
Proof.
  intros [Hl Hi He Hp] Hm Hpos.
  destruct (slot_in_range f (ExtractionIndex f) Hl He) as [x Hx].
  exists x. split; [exact Hx|].
  destruct f as [ev m its I E p]; cbn in *. subst m.
  run_call.
  destruct (Z.eqb_spec p 0) as [E0|_]; [lia|].
  cbn. rewrite Hx.
  destruct (Z.leb_spec 0 E) as [_|]; [|lia].
  cbn.
  rewrite !wrap_small by (rewrite ?uint_range_value in *; lia).
  destruct (p - 1 =? 0); cbn; rewrite Nat.eqb_refl; reflexivity.
Qed.

(** C5: on a well-formed queue with a positive population [pop_try] takes
    the mutex and, once it has it, returns FIFO_STATUS_SUCCESS with the
    content of slot [ExtractionIndex], moves [ExtractionIndex] to
    [(ExtractionIndex + 1) mod capacity], takes one off the population,
    resets the Event exactly when the population has become zero (otherwise
    the Event keeps its state), leaves the slots and [InsertionIndex] alone
    and frees the mutex; while another thread owns the mutex the call
    waits. *)
Theorem pop_try_success (me : tid) (itemPtr : T) (f : Fifo T) :
  fifo_wf capacity f -> 0 < population f ->
  (mutex f = None ->
   exists x,
     items f !! Z.to_nat (ExtractionIndex f) = Some x /\
     pop_try capacity me itemPtr f =
       Returns (FIFO_STATUS_SUCCESS, x)
         (mkFifo (if population f - 1 =? 0 then false else DataAvailableEvent f)
                 None (items f) (InsertionIndex f)
                 ((ExtractionIndex f + 1) mod capacity)
                 (population f - 1))) /\
  (forall other, mutex f = Some other -> other <> me ->
                 pop_try capacity me itemPtr f = Waits).
Proof.
  intros Hwf Hpos. split.
  - intros Hm. exact (pop_try_returns me itemPtr f Hwf Hm Hpos).
  - intros other Hm Hother.
    destruct f as [ev m its I E p]; cbn in Hm, Hpos. subst m.
    run_call.
    destruct (Z.eqb_spec p 0) as [E0|_]; [lia|]. cbn.
    destruct (Nat.eqb_spec other me) as [Heq|_]; [contradiction|].
    reflexivity.
Qed.

Lemma pop_follows_pop_try (me : tid) (itemPtr : T) (f : Fifo T) :
  0 < population f ->
  pop capacity me itemPtr f =
    match pop_try capacity me itemPtr f with
    | Returns (_, x) f' => Returns x f'
    | Waits => Waits
    | Undefined => Undefined
    end.
Proof.
  intros Hpos. destruct f as [ev m its I E p]; cbn in *.
  run_call.
  destruct (Z.eqb_spec p 0) as [E0|_]; [lia|]. cbn.
  destruct m as [owner|]; cbn.
  - destruct (Nat.eqb owner me) eqn:Ho; cbn; [|reflexivity].
    destruct (its !! Z.to_nat E); [|reflexivity].
    destruct (0 <=? E); [|reflexivity].
    cbn. destruct (wrap (p - 1) =? 0); cbn; rewrite Ho; reflexivity.
  - destruct (its !! Z.to_nat E); [|reflexivity].
    destruct (0 <=? E); [|reflexivity].
    cbn. destruct (wrap (p - 1) =? 0); cbn; rewrite Nat.eqb_refl; reflexivity.
Qed.

Lemma pop_try_status (me : tid) (itemPtr : T) (f : Fifo T) st x f' :
  population f <> 0 ->
  pop_try capacity me itemPtr f = Returns (st, x) f' ->
  st = FIFO_STATUS_SUCCESS.
Proof.
  intros Hpos. destruct f as [ev m its I E p]; cbn in *.
  run_call.
  destruct (Z.eqb_spec p 0) as [E0|_]; [lia|]. cbn.
  destruct m as [owner|]; cbn.
  - destruct (Nat.eqb owner me) eqn:Ho; cbn; [|discriminate].
    destruct (its !! Z.to_nat E); [|discriminate].
    destruct (0 <=? E); [|discriminate].
    cbn. destruct (wrap (p - 1) =? 0); cbn; rewrite Ho; cbn; congruence.
  - destruct (its !! Z.to_nat E); [|discriminate].
    destruct (0 <=? E); [|discriminate].
    cbn. destruct (wrap (p - 1) =? 0); cbn; rewrite Nat.eqb_refl; cbn; congruence.
Qed.

(** C7: on a queue with a positive population [pop] and [pop_try] do the
    same thing: whatever [pop_try] does (return, wait for the mutex, leave the
    array) [pop] does, with the same item and the same resulting object; a
    [pop_try] that returns here returns FIFO_STATUS_SUCCESS; and on a
    well-formed queue with a free mutex both do return. *)
Theorem pop_same_as_pop_try (me : tid) (itemPtr : T) (f : Fifo T) :
  0 < population f ->
  pop capacity me itemPtr f =
    match pop_try capacity me itemPtr f with
    | Returns (_, x) f' => Returns x f'
    | Waits => Waits
    | Undefined => Undefined
    end /\
  (forall st x f', pop_try capacity me itemPtr f = Returns (st, x) f' ->
                   st = FIFO_STATUS_SUCCESS) /\
  (fifo_wf capacity f -> mutex f = None ->
   exists x f', pop_try capacity me itemPtr f = Returns (FIFO_STATUS_SUCCESS, x) f' /\
                pop capacity me itemPtr f = Returns x f').
Proof.
  intros Hpos.
  pose proof (pop_follows_pop_try me itemPtr f Hpos) as Heq.
  split; [exact Heq|]. split.
  - intros st x f'. apply pop_try_status. lia.
  - intros Hwf Hm.
    destruct (pop_try_returns me itemPtr f Hwf Hm Hpos) as (x & _ & Hx).
    exists x. eexists. split; [exact Hx|]. rewrite Heq, Hx. reflexivity.
Qed.

(** ** The wait of [pop] *)

(** X4.  [pop] goes from the wait straight to the dequeue.  On an empty queue
    whose Event is signalled it therefore returns the stale content of slot
    [ExtractionIndex] and takes the population from 0 to the largest
    [unsigned]. *)
Lemma pop_passes_wait_on_empty (me : tid) (itemPtr : T) (f : Fifo T) :
  fifo_wf capacity f -> mutex f = None ->
  population f = 0 -> DataAvailableEvent f = true ->
  exists x,
    items f !! Z.to_nat (ExtractionIndex f) = Some x /\
    pop capacity me itemPtr f =
      Returns x (mkFifo true None (items f) (InsertionIndex f)
                        ((ExtractionIndex f + 1) mod capacity)
                        (UINT_RANGE - 1)).
Proof.
  intros [Hl Hi He Hp] Hm H0 Hev.
  destruct (slot_in_range f (ExtractionIndex f) Hl He) as [x Hx].
  exists x. split; [exact Hx|].
  destruct f as [ev m its I E p]; cbn in *. subst m p ev.
  assert (Hw : wrap (0 - 1) = UINT_RANGE - 1) by reflexivity.
  assert (Hne : (UINT_RANGE - 1 =? 0) = false) by reflexivity.
  run_call. rewrite Hx.
  destruct (Z.leb_spec 0 E) as [_|]; [|lia].
  cbn [population DataAvailableEvent mutex items InsertionIndex ExtractionIndex].
  rewrite Hw, Hne. cbn. rewrite Nat.eqb_refl.
  rewrite wrap_small by (rewrite ?uint_range_value in *; lia).
  reflexivity.
Qed.

(** ** The machine runs the member functions *)

Lemma alone_S (n : nat) (me : tid) (th : thread T) (f : Fifo T) :
  alone capacity (S n) me th f =
  match thread_step capacity me th f with
  | Returns th' f' =>
      match at_pc th' with
      | Idle => ret th'
      | _ => alone capacity n me th'
      end f'
  | Waits => Waits
  | Undefined => Undefined
  end.
Proof. reflexivity. Qed.

(** Runs the statements that are in sight, and leaves the rest of the
    thread's run folded. *)
Ltac run_stmt :=
  unfold push, pop_try, pop, thread_step, bind, ret, load,
    store_InsertionIndex, store_ExtractionIndex, store_population,
    items_load, items_store, SetEvent, ResetEvent, set_event,
    WaitForSingleObject, TryEnterCriticalSection, EnterCriticalSection,
    LeaveCriticalSection, set_mutex; cbn -[alone burst].

Ltac alone_step := rewrite alone_S; run_stmt.

Ltac alone_run :=
  repeat (alone_step;
          repeat match goal with
                 | H : _ = true |- _ => rewrite H
                 | H : _ = false |- _ => rewrite H
                 | H : _ = Some _ |- _ => rewrite H
                 | H : _ = None |- _ => rewrite H
                 | H : wrap _ = _ |- _ => rewrite H
                 end;
          rewrite ?Nat.eqb_refl; cbn -[alone]);
  try reflexivity.

(** A thread left alone for the length of a call does what the member
    function does: same return, same wait, same fault, same object. *)
Lemma alone_push (me : tid) (item : T) (rest : list (call T)) (log : list (event T)) (f : Fifo T) :
  alone capacity 9 me (mkThread rest (PushEntry item) log) f =
  match push capacity me item f with
  | Returns st f' => Returns (mkThread rest Idle (log ++ [Pushed item st])) f'
  | Waits => Waits
  | Undefined => Undefined
  end.
Proof.
  destruct f as [ev m its I E p].
  destruct (capacity <=? p) eqn:Hfull; [alone_run|].
  destruct ((0 <=? I) && (I <? Z.of_nat (length its))) eqn:Hrange;
    (destruct m as [o|]; [destruct (Nat.eqb o me) eqn:Ho|]); alone_run.
Qed.

Lemma alone_pop_try (me : tid) (itemPtr : T) (rest : list (call T)) (log : list (event T)) (f : Fifo T) :
  alone capacity 9 me (mkThread rest (TryEntry itemPtr) log) f =
  match pop_try capacity me itemPtr f with
  | Returns (st, x) f' => Returns (mkThread rest Idle (log ++ [TriedPop st x])) f'
  | Waits => Waits
  | Undefined => Undefined
  end.
Proof.
  destruct f as [ev m its I E p].
  destruct (p =? 0) eqn:Hempty; [alone_run|].
  destruct (wrap (p - 1) =? 0) eqn:Hlast;
    (destruct (its !! Z.to_nat E) as [x|] eqn:Hx;
      [destruct (0 <=? E) eqn:Hlow|]);
    (destruct m as [o|]; [destruct (Nat.eqb o me) eqn:Ho|]); alone_run.
Qed.

Lemma alone_pop (me : tid) (itemPtr : T) (rest : list (call T)) (log : list (event T)) (f : Fifo T) :
  alone capacity 9 me (mkThread rest (PopEntry itemPtr) log) f =
  match pop capacity me itemPtr f with
  | Returns x f' => Returns (mkThread rest Idle (log ++ [Popped x])) f'
  | Waits => Waits
  | Undefined => Undefined
  end.
Proof.
  destruct f as [ev m its I E p].
  destruct (p =? 0) eqn:Hempty; destruct ev;
    (destruct (wrap (p - 1) =? 0) eqn:Hlast;
     (destruct (its !! Z.to_nat E) as [x|] eqn:Hx;
       [destruct (0 <=? E) eqn:Hlow|]);
     (destruct m as [o|]; [destruct (Nat.eqb o me) eqn:Ho|]); alone_run).
Qed.

(** ** A push that succeeds *)

Lemma push_succeeded_inv (me : tid) (item : T) (f f' : Fifo T) :
  push capacity me item f = Returns FIFO_STATUS_SUCCESS f' ->
  population f < capacity /\
  (mutex f = None \/ mutex f = Some me) /\
  0 <= InsertionIndex f < Z.of_nat (length (items f)) /\
  f' = mkFifo true None (<[Z.to_nat (InsertionIndex f) := item]> (items f))
              (wrap (InsertionIndex f + 1) mod capacity) (ExtractionIndex f)
              (wrap (population f + 1)).
Proof.
  destruct f as [ev m its I E p]; cbn.
  run_call.
  destruct (Z.leb_spec capacity p) as [|Hlt]; cbn; [discriminate|].
  destruct m as [owner|]; cbn.
  - destruct (Nat.eqb_spec owner me) as [->|Hne]; cbn; [|discriminate].
    destruct (Z.leb_spec capacity p); [lia|]. cbn.
    destruct (Z.leb_spec 0 I); cbn; [|discriminate].
    destruct (Z.ltb_spec I (Z.of_nat (length its))); cbn; [|discriminate].
    rewrite Nat.eqb_refl. cbn. intros [= <-]. auto with lia.
  - destruct (Z.leb_spec capacity p); [lia|]. cbn.
    destruct (Z.leb_spec 0 I); cbn; [|discriminate].
    destruct (Z.ltb_spec I (Z.of_nat (length its))); cbn; [|discriminate].
    rewrite Nat.eqb_refl. cbn. intros [= <-]. auto with lia.
Qed.

(** C4: when [push] succeeds on a well-formed queue it has stored the item
    in slot [InsertionIndex], moved [InsertionIndex] to
    [(InsertionIndex + 1) mod capacity], added one to the population,
    signalled the Event and returned FIFO_STATUS_SUCCESS; and the Event is
    signalled after the mutex is released: run statement by statement, the
    thread reaches the SetEvent statement in a state [g] where the slot,
    the index and the population are already written, the mutex is free and
    the Event is still as it was, and that last statement only signals. *)
Theorem push_success (me : tid) (item : T) (f f' : Fifo T)
    (rest : list (call T)) (log : list (event T)) :
  fifo_wf capacity f ->
  push capacity me item f = Returns FIFO_STATUS_SUCCESS f' ->
  f' = mkFifo true None (<[Z.to_nat (InsertionIndex f) := item]> (items f))
              ((InsertionIndex f + 1) mod capacity) (ExtractionIndex f)
              (population f + 1) /\
  exists g,
    alone capacity 7 me (mkThread rest (PushEntry item) log) f =
      Returns (mkThread rest (PushSetEvent item) log) g /\
    mutex g = None /\
    DataAvailableEvent g = DataAvailableEvent f /\
    items g = items f' /\ InsertionIndex g = InsertionIndex f' /\
    population g = population f' /\
    thread_step capacity me (mkThread rest (PushSetEvent item) log) g =
      Returns (mkThread rest Idle (log ++ [Pushed item FIFO_STATUS_SUCCESS])) f'.
Proof.
  intros [Hl Hi He Hp] Hpush.
  destruct (push_succeeded_inv me item f f' Hpush) as (Hlt & Hm & Hin & ->).
  clear Hpush.
  rewrite !wrap_small by (rewrite ?uint_range_value in *; lia).
  split; [reflexivity|].
  destruct f as [ev m its I E p]; cbn in Hl, Hi, He, Hp, Hlt, Hm, Hin.
  cbn [InsertionIndex items ExtractionIndex population DataAvailableEvent mutex].
  exists (mkFifo ev None (<[Z.to_nat I := item]> its) ((I + 1) mod capacity) E (p + 1)).
  assert (Hfull : (capacity <=? p) = false) by (apply Z.leb_gt; lia).
  assert (Hrange : (0 <=? I) && (I <? Z.of_nat (length its)) = true).
  { apply andb_true_iff. split; [apply Z.leb_le|apply Z.ltb_lt]; lia. }
  assert (HwI : wrap (I + 1) = I + 1)
    by (apply wrap_small; rewrite ?uint_range_value in *; lia).
  assert (Hwp : wrap (p + 1) = p + 1)
    by (apply wrap_small; rewrite ?uint_range_value in *; lia).
  destruct Hm as [-> | ->];
    (split; [alone_run; cbn; rewrite HwI, Hwp; reflexivity|]);
    repeat split; reflexivity.
Qed.

Lemma push_returns (me : tid) (item : T) (f : Fifo T) :
  fifo_wf capacity f -> mutex f = None -> population f < capacity ->
  push capacity me item f =
    Returns FIFO_STATUS_SUCCESS
      (mkFifo true None (<[Z.to_nat (InsertionIndex f) := item]> (items f))
              ((InsertionIndex f + 1) mod capacity) (ExtractionIndex f)
              (population f + 1)).
Proof.
  intros [Hl Hi He Hp] Hm Hlt.
  destruct f as [ev m its I E p]; cbn in *. subst m.
  run_call.
  destruct (Z.leb_spec capacity p); [lia|]. cbn.
  destruct (Z.leb_spec capacity p); [lia|]. cbn.
  destruct (Z.leb_spec 0 I); [|lia].
  destruct (Z.ltb_spec I (Z.of_nat (length its))); [|lia].
  cbn. rewrite Nat.eqb_refl. cbn.
  rewrite !wrap_small by (rewrite ?uint_range_value in *; lia).
  reflexivity.
Qed.

Lemma pop_returns (me : tid) (itemPtr : T) (f : Fifo T) :
  fifo_wf capacity f -> mutex f = None -> 0 < population f ->
  exists x,
    items f !! Z.to_nat (ExtractionIndex f) = Some x /\
    pop capacity me itemPtr f =
      Returns x
        (mkFifo (if population f - 1 =? 0 then false else DataAvailableEvent f)
                None (items f) (InsertionIndex f)
                ((ExtractionIndex f + 1) mod capacity)
                (population f - 1)).
Proof.
  intros Hwf Hm Hpos.
  destruct (pop_try_returns me itemPtr f Hwf Hm Hpos) as (x & Hx & Hr).
  exists x. split; [exact Hx|].
  rewrite (pop_follows_pop_try me itemPtr f Hpos), Hr. reflexivity.
Qed.

(** ** The live slots as a queue *)

(** The array read twice over gives the slots from any index on, around
    the end. *)
(** Writing the slot just past the live ones leaves the live ones alone. *)
Lemma ring_keep (l : list T) (e p j : nat) (x : T) :
  (j < length l)%nat -> (e + p = j \/ e + p = j + length l)%nat ->
  (p < length l)%nat ->
  take p (drop e (<[j := x]> l ++ <[j := x]> l)) = take p (drop e (l ++ l)).
Proof.
  intros Hj Hsum Hp.
  assert (Hlen : length (<[j := x]> l) = length l) by apply length_insert.
  apply list_eq. intros i.
  destruct (decide (i < p)%nat) as [Hi|Hi].
  - rewrite !lookup_take_lt by lia. rewrite !lookup_drop.
    destruct (decide (e + i < length l)%nat) as [Hlt|Hge].
    + rewrite !lookup_app_l by lia. apply list_lookup_insert_ne. lia.
    + rewrite !lookup_app_r by lia. rewrite Hlen.
      apply list_lookup_insert_ne. lia.
  - rewrite !lookup_take_ge by lia. reflexivity.
Qed.

(** Counting one more slot appends what that slot holds. *)
Lemma ring_snoc (l : list T) (e p j : nat) (x : T) :
  l !! j = Some x -> (e + p = j \/ e + p = j + length l)%nat ->
  take (S p) (drop e (l ++ l)) = take p (drop e (l ++ l)) ++ [x].
Proof.
  intros Hx Hsum.
  assert (Hj : (j < length l)%nat) by (apply lookup_lt_is_Some; eauto).
  apply take_S_r. rewrite lookup_drop.
  destruct (decide (e + p < length l)%nat) as [Hlt|Hge].
  - rewrite lookup_app_l by lia. replace (e + p)%nat with j by lia. exact Hx.
  - rewrite lookup_app_r by lia.
    replace (e + p - length l)%nat with j by lia. exact Hx.
Qed.

Lemma ring_push (l : list T) (e p j : nat) (x : T) :
  (j < length l)%nat -> (e + p = j \/ e + p = j + length l)%nat ->
  (p < length l)%nat ->
  take (S p) (drop e (<[j := x]> l ++ <[j := x]> l)) =
  take p (drop e (l ++ l)) ++ [x].
Proof.
  intros Hj Hsum Hp.
  rewrite (ring_snoc (<[j := x]> l) e p j x).
  - rewrite ring_keep by assumption. reflexivity.
  - apply list_lookup_insert_eq. exact Hj.
  - rewrite length_insert. exact Hsum.
Qed.

Lemma ring_pop (l : list T) (e e' p : nat) (x : T) :
  l !! e = Some x ->
  ((e' = e + 1 /\ e + 1 < length l) \/ (e' = 0 /\ e + 1 = length l))%nat ->
  (p < length l)%nat ->
  take (S p) (drop e (l ++ l)) = x :: take p (drop e' (l ++ l)).
Proof.
  intros Hx He Hp.
  assert (Hlt : (e < length l)%nat) by (apply lookup_lt_is_Some; eauto).
  rewrite (drop_S (l ++ l) x e) by (rewrite lookup_app_l by lia; exact Hx).
  cbn. f_equal.
  destruct He as [[-> _]|[-> Hend]].
  - replace (e + 1)%nat with (S e) by lia. reflexivity.
  - replace (S e) with (length l) by lia.
    rewrite drop_app_length, drop_0.
    rewrite take_app_le by lia. reflexivity.
Qed.

Lemma fifo_inv_new (stale : list T) :
  Z.of_nat (length stale) = capacity -> fifo_inv capacity (Fifo_new stale).
Proof.
  intros Hl. split; [split|..]; cbn; try reflexivity; lia.
Qed.

Lemma fifo_inv_push (me : tid) (item : T) (f : Fifo T) :
  fifo_inv capacity f -> population f < capacity ->
  exists f',
    push capacity me item f = Returns FIFO_STATUS_SUCCESS f' /\
    fifo_inv capacity f' /\
    contents f' = contents f ++ [item] /\
    population f' = population f + 1.
Proof.
  intros [Hwf Hb Hm Hev Hins] Hlt.
  eexists. split; [apply (push_returns me item f Hwf Hm Hlt)|].
  destruct Hwf as [Hl Hi He Hp].
  destruct f as [ev m its I E p]; cbn in *.
  assert (HI : 0 <= (I + 1) mod capacity < capacity) by (apply Z.mod_pos_bound; lia).
  split; [split; [split|..]|split]; cbn; try lia.
  - rewrite length_insert. exact Hl.
  - destruct (Z.eqb_spec (p + 1) 0); [lia|reflexivity].
  - rewrite Hins. rewrite Z.add_mod_idemp_l by lia. f_equal. lia.
  - unfold contents; cbn.
    replace (Z.to_nat (p + 1)) with (S (Z.to_nat p)) by lia.
    apply ring_push; try lia.
    destruct (Z_lt_le_dec (E + p) capacity) as [Hs|Hs].
    + left. rewrite Hins, Z.mod_small by lia. lia.
    + right. rewrite Hins.
      replace (E + p) with ((E + p - capacity) + 1 * capacity) by lia.
      rewrite Z.mod_add by lia. rewrite Z.mod_small by lia. lia.
Qed.

Lemma fifo_inv_dequeue (f : Fifo T) (x : T) :
  fifo_inv capacity f -> 0 < population f ->
  items f !! Z.to_nat (ExtractionIndex f) = Some x ->
  let f' := mkFifo (if population f - 1 =? 0 then false else DataAvailableEvent f)
                   None (items f) (InsertionIndex f)
                   ((ExtractionIndex f + 1) mod capacity)
                   (population f - 1) in
  fifo_inv capacity f' /\ contents f = x :: contents f'.
Proof.
  intros [[Hl Hi He Hp] Hb Hm Hev Hins] Hpos Hx.
  destruct f as [ev m its I E p]; cbn in *.
  assert (HE : 0 <= (E + 1) mod capacity < capacity) by (apply Z.mod_pos_bound; lia).
  split; [split; [split|..]|]; cbn; try lia; try assumption.
  - reflexivity.
  - destruct (Z.eqb_spec (p - 1) 0) as [E0|E0]; [reflexivity|].
    rewrite Hev. destruct (Z.eqb_spec p 0); [lia|reflexivity].
  - rewrite Hins. rewrite Z.add_mod_idemp_l by lia. f_equal. lia.
  - unfold contents; cbn.
    replace (Z.to_nat p) with (S (Z.to_nat (p - 1))) by lia.
    apply ring_pop; [exact Hx| |lia].
    destruct (Z_lt_le_dec (E + 1) capacity) as [Hs|Hs].
    + left. rewrite Z.mod_small by lia. lia.
    + right. replace (E + 1) with capacity by lia.
      rewrite Z.mod_same by lia. lia.
Qed.

Lemma fifo_inv_pop_try (me : tid) (itemPtr : T) (f : Fifo T) :
  fifo_inv capacity f -> 0 < population f ->
  exists x f',
    pop_try capacity me itemPtr f = Returns (FIFO_STATUS_SUCCESS, x) f' /\
    fifo_inv capacity f' /\
    contents f = x :: contents f' /\
    population f' = population f - 1.
Proof.
  intros Hinv Hpos.
  destruct (pop_try_returns me itemPtr f (inv_wf _ _ Hinv) (inv_free _ _ Hinv) Hpos)
    as (x & Hx & Hr).
  exists x. eexists. split; [exact Hr|].
  destruct (fifo_inv_dequeue f x Hinv Hpos Hx) as [H1 H2].
  split; [exact H1|]. split; [exact H2|]. reflexivity.
Qed.

Lemma fifo_inv_pop (me : tid) (itemPtr : T) (f : Fifo T) :
  fifo_inv capacity f -> 0 < population f ->
  exists x f',
    pop capacity me itemPtr f = Returns x f' /\
    fifo_inv capacity f' /\
    contents f = x :: contents f' /\
    population f' = population f - 1.
Proof.
  intros Hinv Hpos.
  destruct (pop_returns me itemPtr f (inv_wf _ _ Hinv) (inv_free _ _ Hinv) Hpos)
    as (x & Hx & Hr).
  exists x. eexists. split; [exact Hr|].
  destruct (fifo_inv_dequeue f x Hinv Hpos Hx) as [H1 H2].
  split; [exact H1|]. split; [exact H2|]. reflexivity.
Qed.


(** ** Histories *)

Lemma push_when_full (me : tid) (item : T) (f : Fifo T) :
  capacity <= population f ->
  push capacity me item f = Returns FIFO_STATUS_FULL f.
Proof.
  intros Hp. run_call.
  destruct (Z.leb_spec capacity (population f)); [reflexivity|lia].
Qed.

Lemma pop_try_when_empty (me : tid) (itemPtr : T) (f : Fifo T) :
  population f = 0 ->
  pop_try capacity me itemPtr f = Returns (FIFO_STATUS_EMPTY, itemPtr) f.
Proof. intros Hp. run_call. rewrite Hp. reflexivity. Qed.

Lemma burst_S (n : nat) (me : tid) (th : thread T) (f : Fifo T) :
  burst capacity (S n) me th f =
  match thread_step capacity me th f with
  | Returns th' f' =>
      match at_pc th' with
      | Idle => Some (th', f')
      | _ => burst capacity n me th' f'
      end
  | Waits => Some (th, f)
  | Undefined => None
  end.
Proof. reflexivity. Qed.

(** A call that returns when the thread is left alone returns the same way
    within a turn. *)
Lemma burst_alone (n : nat) (me : tid) :
  forall (th th' : thread T) (f f' : Fifo T),
    alone capacity n me th f = Returns th' f' -> at_pc th' = Idle ->
    burst capacity n me th f = Some (th', f').
Proof.
  induction n as [|n IH]; intros th th' f f' Hal Hidle.
  - cbn in Hal. injection Hal as <- <-. reflexivity.
  - rewrite alone_S in Hal. rewrite burst_S.
    destruct (thread_step capacity me th f) as [th1 f1| |]; try discriminate Hal.
    destruct (at_pc th1) eqn:Hpc;
      first [ injection Hal as <- <-; reflexivity | exact (IH _ _ _ _ Hal Hidle) ].
Qed.

Lemma burst_start (n : nat) (me : tid) (c : call T) (rest : list (call T))
    (log : list (event T)) (f : Fifo T) :
  burst capacity (S n) me (mkThread (c :: rest) Idle log) f =
  burst capacity n me (mkThread rest (entry c) log) f.
Proof. rewrite burst_S. destruct c; reflexivity. Qed.

Ltac burst_step := rewrite burst_S; run_stmt.

Lemma own_log (log : list (event T)) (ev : event T) :
  drop (length log) (log ++ [ev]) = [ev].
Proof. rewrite drop_app_length. reflexivity. Qed.

Lemma no_log (log : list (event T)) : drop (length log) log = [].
Proof. apply drop_all. Qed.

(** A thread between calls makes its next call: the call returns, or it is
    a [pop] on the empty queue and the thread goes to sleep.  Either way the
    invariant is kept and the queue moves as a queue: what was live,
    followed by what was pushed, is what was popped followed by what is live
    now. *)
Lemma burst_call (me : tid) (c : call T) (rest : list (call T))
    (log : list (event T)) (f : Fifo T) :
  fifo_inv capacity f ->
  exists th' f',
    burst capacity CALL_STATEMENTS me (mkThread (c :: rest) Idle log) f =
      Some (th', f') /\
    fifo_inv capacity f' /\ resting th' = true /\
    contents f ++ pushed (drop (length log) (done th')) =
      popped (drop (length log) (done th')) ++ contents f'.
Proof.
  intros Hinv.
  pose proof (inv_bound _ _ Hinv) as Hb.
  pose proof (wf_population _ _ (inv_wf _ _ Hinv)) as Hp.
  destruct c as [item|itemPtr|itemPtr].
  - unfold CALL_STATEMENTS. rewrite burst_start. cbn [entry].
    pose proof (alone_push me item rest log f) as Hal.
    destruct (Z_lt_le_dec (population f) capacity) as [Hlt|Hge].
    + destruct (fifo_inv_push me item f Hinv Hlt) as (f' & Hpush & Hinv' & Hc & _).
      rewrite Hpush in Hal.
      eexists _, f'. split; [apply (burst_alone _ _ _ _ _ _ Hal); reflexivity|].
      split; [exact Hinv'|]. split; [reflexivity|].
      cbn [done]. rewrite own_log, Hc. reflexivity.
    + rewrite push_when_full in Hal by lia.
      eexists _, f. split; [apply (burst_alone _ _ _ _ _ _ Hal); reflexivity|].
      split; [exact Hinv|]. split; [reflexivity|].
      cbn [done]. rewrite own_log. cbn. rewrite app_nil_r. reflexivity.
  - unfold CALL_STATEMENTS. rewrite burst_start. cbn [entry].
    pose proof (alone_pop_try me itemPtr rest log f) as Hal.
    destruct (Z.eq_dec (population f) 0) as [H0|H0].
    + rewrite pop_try_when_empty in Hal by exact H0.
      eexists _, f. split; [apply (burst_alone _ _ _ _ _ _ Hal); reflexivity|].
      split; [exact Hinv|]. split; [reflexivity|].
      cbn [done]. rewrite own_log. cbn. rewrite app_nil_r. reflexivity.
    + destruct (fifo_inv_pop_try me itemPtr f Hinv)
        as (x & f' & Htry & Hinv' & Hc & _); [lia|].
      rewrite Htry in Hal.
      eexists _, f'. split; [apply (burst_alone _ _ _ _ _ _ Hal); reflexivity|].
      split; [exact Hinv'|]. split; [reflexivity|].
      cbn [done]. rewrite own_log, Hc, app_nil_r. reflexivity.
  - unfold CALL_STATEMENTS. rewrite burst_start. cbn [entry].
    destruct (Z.eq_dec (population f) 0) as [H0|H0].
    + exists (mkThread rest (PopWait itemPtr) log), f. split.
      * pose proof (inv_event _ _ Hinv) as Hev.
        destruct f as [ev m its I E p]; cbn in H0, Hev. subst p ev.
        burst_step. burst_step. reflexivity.
      * split; [exact Hinv|]. split; [reflexivity|].
        cbn [done]. rewrite no_log, app_nil_r. reflexivity.
    + pose proof (alone_pop me itemPtr rest log f) as Hal.
      destruct (fifo_inv_pop me itemPtr f Hinv)
        as (x & f' & Hpop & Hinv' & Hc & _); [lia|].
      rewrite Hpop in Hal.
      eexists _, f'. split; [apply (burst_alone _ _ _ _ _ _ Hal); reflexivity|].
      split; [exact Hinv'|]. split; [reflexivity|].
      cbn [done]. rewrite own_log, Hc, app_nil_r. reflexivity.
Qed.

(** A thread asleep in [pop] that gets the processor: it sleeps on while the
    Event is not signalled, and dequeues once it is. *)
Lemma burst_parked (me : tid) (itemPtr : T) (rest : list (call T))
    (log : list (event T)) (f : Fifo T) :
  fifo_inv capacity f ->
  exists th' f',
    burst capacity CALL_STATEMENTS me (mkThread rest (PopWait itemPtr) log) f =
      Some (th', f') /\
    fifo_inv capacity f' /\ resting th' = true /\
    contents f ++ pushed (drop (length log) (done th')) =
      popped (drop (length log) (done th')) ++ contents f'.
Proof.
  intros Hinv.
  pose proof (inv_event _ _ Hinv) as Hev.
  pose proof (wf_population _ _ (inv_wf _ _ Hinv)) as Hp.
  destruct (Z.eq_dec (population f) 0) as [H0|H0].
  - exists (mkThread rest (PopWait itemPtr) log), f. split.
    + destruct f as [ev m its I E p]; cbn in H0, Hev. subst p ev.
      unfold CALL_STATEMENTS. burst_step. reflexivity.
    + split; [exact Hinv|]. split; [reflexivity|].
      cbn [done]. rewrite no_log, app_nil_r. reflexivity.
  - assert (Hpos : 0 < population f) by lia.
    destruct (pop_returns me itemPtr f (inv_wf _ _ Hinv) (inv_free _ _ Hinv) Hpos)
      as (x & Hx & _).
    destruct (fifo_inv_dequeue f x Hinv Hpos Hx) as [Hinv' Hc].
    eexists (mkThread rest Idle (log ++ [Popped x])), _.
    split; [|split; [exact Hinv'|split; [reflexivity|]]].
    + apply burst_alone; [|reflexivity].
      destruct Hinv as [[Hl Hi He _] _ Hm _ _].
      destruct f as [ev m its I E p];
        cbn in Hev, Hp, H0, Hpos, Hx, Hl, Hi, He, Hm.
      cbn [DataAvailableEvent mutex items InsertionIndex ExtractionIndex population].
      subst m.
      assert (Hempty : (p =? 0) = false) by (apply Z.eqb_neq; lia).
      rewrite Hempty in Hev. cbn in Hev. subst ev.
      assert (Hlow : (0 <=? E) = true) by (apply Z.leb_le; lia).
      assert (Hw1 : wrap (E + 1) = E + 1)
        by (apply wrap_small; rewrite ?uint_range_value in *; lia).
      assert (Hw2 : wrap (p - 1) = p - 1)
        by (apply wrap_small; rewrite ?uint_range_value in *; lia).
      unfold CALL_STATEMENTS.
      destruct (p - 1 =? 0) eqn:Hlast; alone_run.
    + cbn [done]. rewrite own_log, Hc, app_nil_r. reflexivity.
Qed.

Lemma burst_idle (me : tid) (log : list (event T)) (f : Fifo T) :
  burst capacity CALL_STATEMENTS me (mkThread [] Idle log) f =
    Some (mkThread [] Idle log, f).
Proof. unfold CALL_STATEMENTS. rewrite burst_S. reflexivity. Qed.

(** One turn keeps the program as it should be between turns. *)
Lemma turn_inv (t : tid) (s : system T) :
  coop_inv capacity s ->
  exists s' evs,
    turn capacity t s = Some (s', evs) /\
    coop_inv capacity s' /\
    contents (shared s) ++ pushed evs = popped evs ++ contents (shared s').
Proof.
  intros [Hinv Hths]. unfold turn.
  destruct (threads s !! t) as [th|] eqn:Hth.
  - assert (Hrest : resting th = true).
    { rewrite Forall_lookup in Hths. exact (Hths t th Hth). }
    assert (Hburst : exists th' f',
      burst capacity CALL_STATEMENTS t th (shared s) = Some (th', f') /\
      fifo_inv capacity f' /\ resting th' = true /\
      contents (shared s) ++ pushed (drop (length (done th)) (done th')) =
        popped (drop (length (done th)) (done th')) ++ contents f').
    { destruct th as [td l log]. destruct l; try discriminate Hrest.
      - destruct td as [|c rest].
        + exists (mkThread [] Idle log), (shared s).
          split; [apply burst_idle|]. split; [exact Hinv|].
          split; [reflexivity|].
          cbn [done]. rewrite no_log, app_nil_r. reflexivity.
        + apply burst_call, Hinv.
      - apply burst_parked, Hinv. }
    destruct Hburst as (th' & f' & -> & Hinv' & Hrest' & Hq).
    eexists _, _. split; [reflexivity|]. split; [|exact Hq].
    split; cbn [shared threads]; [exact Hinv'|].
    apply Forall_insert; assumption.
  - exists s, []. split; [reflexivity|]. split; [split; assumption|].
    rewrite app_nil_r. reflexivity.
Qed.

Lemma pushed_app (tr1 tr2 : list (event T)) :
  pushed (tr1 ++ tr2) = pushed tr1 ++ pushed tr2.
Proof. apply omap_app. Qed.

Lemma popped_app (tr1 tr2 : list (event T)) :
  popped (tr1 ++ tr2) = popped tr1 ++ popped tr2.
Proof. apply omap_app. Qed.

Lemma run_turns_inv (sched : list tid) :
  forall s : system T,
    coop_inv capacity s ->
    exists s' tr,
      run_turns capacity sched s = Some (s', tr) /\
      coop_inv capacity s' /\
      contents (shared s) ++ pushed tr = popped tr ++ contents (shared s').
Proof.
  induction sched as [|t sched IH]; intros s Hinv.
  - exists s, []. split; [reflexivity|]. split; [exact Hinv|].
    rewrite app_nil_r. reflexivity.
  - destruct (turn_inv t s Hinv) as (s1 & evs & Hturn & Hinv1 & Hq1).
    destruct (IH s1 Hinv1) as (s' & tr & Hrun & Hinv' & Hq).
    exists s', (evs ++ tr). cbn [run_turns]. rewrite Hturn, Hrun.
    split; [reflexivity|]. split; [exact Hinv'|].
    rewrite pushed_app, popped_app.
    rewrite app_assoc, Hq1, <- !app_assoc, Hq. reflexivity.
Qed.

Lemma boot_inv (stale : list T) (pool : list (list (call T))) :
  Z.of_nat (length stale) = capacity -> coop_inv capacity (boot stale pool).
Proof.
  intros Hl. split; cbn [boot shared threads].
  - apply fifo_inv_new, Hl.
  - apply Forall_map, Forall_true. reflexivity.
Qed.

Lemma reachable_inv (f : Fifo T) : reachable capacity f -> fifo_inv capacity f.
Proof.
  intros (stale & pool & sched & s & tr & Hl & Hrun & <-).
  destruct (run_turns_inv sched _ (boot_inv stale pool Hl))
    as (s' & tr' & Hrun' & Hinv & _).
  rewrite Hrun in Hrun'. injection Hrun' as <- <-. apply Hinv.
Qed.

Lemma contents_new (stale : list T) : contents (Fifo_new stale) = [].
Proof. reflexivity. Qed.



(** C6, amended: in every state reached by calls that ran one at a time, in
    which a push of [X] succeeds, a pop right after it (by [pop_try] or by
    [pop]) succeeds, brings the population back to what it was before the
    push, and returns the oldest item of the queue: [X] itself when the
    queue was empty before the push, the item at the head of the queue
    otherwise. *)
Theorem push_then_pop (me reader : tid) (X itemPtr : T) (f f1 : Fifo T) :
  reachable capacity f ->
  push capacity me X f = Returns FIFO_STATUS_SUCCESS f1 ->
  exists y f2,
    pop_try capacity reader itemPtr f1 = Returns (FIFO_STATUS_SUCCESS, y) f2 /\
    pop capacity reader itemPtr f1 = Returns y f2 /\
    population f2 = population f /\
    y = hd X (contents f) /\
    (population f = 0 -> y = X).
Proof.
  intros Hreach Hpush.
  pose proof (reachable_inv f Hreach) as Hinv.
  destruct (push_succeeded_inv me X f f1 Hpush) as (Hlt & _).
  destruct (fifo_inv_push me X f Hinv Hlt) as (f' & Hpush' & Hinv1 & Hc1 & Hp1).
  rewrite Hpush in Hpush'. injection Hpush' as <-.
  pose proof (wf_population _ _ (inv_wf _ _ Hinv)) as Hp.
  assert (Hpos : 0 < population f1) by lia.
  destruct (fifo_inv_pop_try reader itemPtr f1 Hinv1 Hpos)
    as (y & f2 & Htry & _ & Hc2 & Hp2).
  exists y, f2. split; [exact Htry|]. split.
  { rewrite (pop_follows_pop_try reader itemPtr f1 Hpos), Htry. reflexivity. }
  split; [lia|].
  assert (Hy : y = hd X (contents f)).
  { rewrite Hc1 in Hc2. destruct (contents f); cbn in *; congruence. }
  split; [exact Hy|].
  intros H0. rewrite Hy. unfold contents. rewrite H0. reflexivity.
Qed.

(** ** Two writers and one free slot *)

Lemma leb_capacity_free : (capacity <=? capacity - 1 + 0) = false.
Proof. apply Z.leb_gt. lia. Qed.

Lemma leb_capacity_full : (capacity <=? capacity - 1 + 1) = true.
Proof. apply Z.leb_le. lia. Qed.

Lemma store_in_range (I : Z) (n : nat) :
  Z.of_nat n = capacity -> 0 <= I < capacity ->
  (0 <=? I) && (I <? Z.of_nat n) = true.
Proof.
  intros Hn HI. apply andb_true_iff. split; [apply Z.leb_le|apply Z.ltb_lt]; lia.
Qed.

Ltac race_arith :=
  rewrite ?leb_capacity_free, ?leb_capacity_full;
  rewrite ?wrap_small by (rewrite ?uint_range_value in *; lia).

Ltac race_wf_goal :=
  match goal with
  | Hl : Z.of_nat (length _) = capacity |- _ =>
      split; cbn;
      [ rewrite ?length_insert; exact Hl
      | first [assumption | apply Z.mod_pos_bound; lia]
      | assumption
      | rewrite ?uint_range_value in *; lia ]
  end.

Ltac race_close :=
  eexists; split; [reflexivity|];
  split; cbn; [reflexivity | race_wf_goal | reflexivity | lia | reflexivity].

Lemma race_step_0 (s : system T) (a b : T) (sa sb : stage) :
  race_inv capacity s a b sa sb ->
  exists s', sys_step capacity 0%nat s = Some s' /\
    race_inv capacity s' a b
      (stage_step sa (counted sa || counted sb) (holds sb)) sb.
Proof.
  destruct s as [f ths]. intros [Hth [Hl Hi He Hp] Hm Hpop Hok]; cbn in *.
  subst ths. destruct f as [ev m its I E p]; cbn in *. subst m p.
  pose proof (store_in_range I (length its) Hl Hi) as Hstore.
  destruct sa as [| | | | | | | | | |[]], sb as [| | | | | | | | | |[]];
    try discriminate Hok; clear Hok;
    unfold sys_step; cbn; run_call; race_arith; cbn;
    rewrite ?Hstore; cbn; race_arith; race_close.
Qed.

Lemma race_step_1 (s : system T) (a b : T) (sa sb : stage) :
  race_inv capacity s a b sa sb ->
  exists s', sys_step capacity 1%nat s = Some s' /\
    race_inv capacity s' a b sa
      (stage_step sb (counted sa || counted sb) (holds sa)).
Proof.
  destruct s as [f ths]. intros [Hth [Hl Hi He Hp] Hm Hpop Hok]; cbn in *.
  subst ths. destruct f as [ev m its I E p]; cbn in *. subst m p.
  pose proof (store_in_range I (length its) Hl Hi) as Hstore.
  destruct sa as [| | | | | | | | | |[]], sb as [| | | | | | | | | |[]];
    try discriminate Hok; clear Hok;
    unfold sys_step; cbn; run_call; race_arith; cbn;
    rewrite ?Hstore; cbn; race_arith; race_close.
Qed.

Lemma race_step_other (s : system T) (a b : T) (sa sb : stage) (t : tid) :
  race_inv capacity s a b sa sb -> (2 <= t)%nat ->
  sys_step capacity t s = Some s.
Proof.
  intros [Hth _ _ _ _] Ht. unfold sys_step. rewrite Hth.
  destruct t as [|[|t]]; [lia|lia|reflexivity].
Qed.

Lemma remaining_step (s : stage) (full other_holds : bool) :
  (remaining (stage_step s full other_holds) <= remaining s - 1)%nat.
Proof. destruct s, full, other_holds; cbn; lia. Qed.

Ltac count_turns :=
  repeat match goal with
         | |- context [Nat.eq_dec ?x ?y] => destruct (Nat.eq_dec x y); try lia
         end;
  try lia.

(** Whatever the schedule, the race goes on inside [race_inv], and every
    turn a thread gets takes one off what it has left to do. *)
Lemma race_run (a b : T) (sched : list tid) :
  forall (s : system T) (sa sb : stage),
    race_inv capacity s a b sa sb ->
    exists s' sa' sb',
      run capacity sched s = Some s' /\
      race_inv capacity s' a b sa' sb' /\
      (remaining sa' <= remaining sa - count_occ Nat.eq_dec sched 0)%nat /\
      (remaining sb' <= remaining sb - count_occ Nat.eq_dec sched 1)%nat.
Proof.
  induction sched as [|t sched IH]; intros s sa sb Hinv.
  - exists s, sa, sb. cbn.
    split; [reflexivity|]. split; [exact Hinv|]. split; lia.
  - destruct t as [|[|t]].
    + destruct (race_step_0 s a b sa sb Hinv) as (s1 & Hs1 & Hinv1).
      destruct (IH _ _ _ Hinv1) as (s' & sa' & sb' & Hrun & Hinv' & Ha & Hb).
      exists s', sa', sb'. cbn [run]. rewrite Hs1.
      split; [exact Hrun|]. split; [exact Hinv'|].
      pose proof (remaining_step sa (counted sa || counted sb) (holds sb)).
      cbn [count_occ]. count_turns.
    + destruct (race_step_1 s a b sa sb Hinv) as (s1 & Hs1 & Hinv1).
      destruct (IH _ _ _ Hinv1) as (s' & sa' & sb' & Hrun & Hinv' & Ha & Hb).
      exists s', sa', sb'. cbn [run]. rewrite Hs1.
      split; [exact Hrun|]. split; [exact Hinv'|].
      pose proof (remaining_step sb (counted sa || counted sb) (holds sa)).
      cbn [count_occ]. count_turns.
    + destruct (IH _ _ _ Hinv) as (s' & sa' & sb' & Hrun & Hinv' & Ha & Hb).
      exists s', sa', sb'. cbn [run].
      rewrite (race_step_other s a b sa sb (S (S t)) Hinv) by lia.
      split; [exact Hrun|]. split; [exact Hinv'|].
      cbn [count_occ]. count_turns.
Qed.

Lemma race_start (f : Fifo T) (a b : T) :
  fifo_wf capacity f -> mutex f = None -> population f = capacity - 1 ->
  race_inv capacity (two_producers f a b) a b SStart SStart.
Proof.
  intros Hwf Hm Hp. split; cbn; try assumption; try reflexivity. lia.
Qed.

Lemma remaining_done (s : stage) :
  remaining s = 0%nat -> exists st, s = SDone st.
Proof. destruct s; cbn; try discriminate. eauto. Qed.

(** C9: two threads each push one item into a queue that has exactly one
    free slot and a free mutex, their statements interleaved in any order.
    The run never leaves defined behaviour; at no moment have both pushes
    returned FIFO_STATUS_SUCCESS; when both have returned, exactly one
    returned FIFO_STATUS_SUCCESS and the other FIFO_STATUS_PREEMPTED,
    FIFO_STATUS_FULL or FIFO_STATUS_LOCKED; and both have returned as soon
    as each thread has had nine turns. *)
Theorem one_slot_one_winner (f : Fifo T) (a b : T) (sched : list tid) :
  fifo_wf capacity f -> mutex f = None -> population f = capacity - 1 ->
  exists s' A B,
    run capacity sched (two_producers f a b) = Some s' /\
    threads s' = [A; B] /\
    succeeded A && succeeded B = false /\
    (finished A = true -> finished B = true ->
     exists ra rb,
       done A = [Pushed a ra] /\ done B = [Pushed b rb] /\
       ((ra = FIFO_STATUS_SUCCESS /\
         (rb = FIFO_STATUS_PREEMPTED \/ rb = FIFO_STATUS_FULL \/
          rb = FIFO_STATUS_LOCKED)) \/
        (rb = FIFO_STATUS_SUCCESS /\
         (ra = FIFO_STATUS_PREEMPTED \/ ra = FIFO_STATUS_FULL \/
          ra = FIFO_STATUS_LOCKED)))) /\
    ((9 <= count_occ Nat.eq_dec sched 0)%nat ->
     (9 <= count_occ Nat.eq_dec sched 1)%nat ->
     finished A = true /\ finished B = true).
Proof.
  intros Hwf Hm Hp.
  destruct (race_run a b sched _ _ _ (race_start f a b Hwf Hm Hp))
    as (s' & sa & sb & Hrun & [Hth _ _ _ Hok] & Ha & Hb).
  exists s', (thread_at a sa), (thread_at b sb).
  split; [exact Hrun|]. split; [exact Hth|]. split; [|split].
  - destruct sa as [| | | | | | | | | |[]], sb as [| | | | | | | | | |[]];
      try reflexivity; discriminate Hok.
  - intros Hfa Hfb.
    destruct sa as [| | | | | | | | | |ra]; try discriminate Hfa.
    destruct sb as [| | | | | | | | | |rb]; try discriminate Hfb.
    exists ra, rb. split; [reflexivity|]. split; [reflexivity|].
    destruct ra, rb; try discriminate Hok; auto.
  - intros Hca Hcb. cbn in Ha, Hb.
    destruct (remaining_done sa) as [ra ->]; [lia|].
    destruct (remaining_done sb) as [rb ->]; [lia|].
    split; reflexivity.
Qed.

(** ** One writer and one reader, statement by statement *)

Lemma base_after_bump (i : Z) :
  0 <= i < capacity -> ((i + 1) mod capacity - 1) mod capacity = i.
Proof.
  intros Hi. destruct (Z_lt_le_dec (i + 1) capacity) as [Hlt|Hge].
  - rewrite (Z.mod_small (i + 1)) by lia. rewrite Z.mod_small by lia. lia.
  - replace (i + 1) with capacity by lia. rewrite Z.mod_same by lia.
    replace (0 - 1) with (capacity - 1 + (-1) * capacity) by lia.
    rewrite Z.mod_add by lia. rewrite Z.mod_small by lia. lia.
Qed.

Lemma bump_after_base (e : Z) :
  0 <= e < capacity ->
  0 <= (e - 1) mod capacity < capacity /\
  ((e = (e - 1) mod capacity + 1 /\ (e - 1) mod capacity + 1 < capacity) \/
   (e = 0 /\ (e - 1) mod capacity + 1 = capacity)).
Proof.
  intros He. split; [apply Z.mod_pos_bound; lia|].
  destruct (Z.eq_dec e 0) as [->|Hne].
  - right. split; [reflexivity|].
    replace (0 - 1) with (capacity - 1 + (-1) * capacity) by lia.
    rewrite Z.mod_add by lia. rewrite Z.mod_small by lia. lia.
  - left. rewrite Z.mod_small by lia. lia.
Qed.

Lemma ring_position (e p : Z) :
  0 <= e < capacity -> 0 <= p <= capacity ->
  0 <= (e + p) mod capacity < capacity /\
  (e + p = (e + p) mod capacity \/ e + p = (e + p) mod capacity + capacity).
Proof.
  intros He Hp. split; [apply Z.mod_pos_bound; lia|].
  destruct (Z_lt_le_dec (e + p) capacity) as [Hlt|Hge].
  - left. rewrite Z.mod_small by lia. reflexivity.
  - right. replace (e + p) with (e + p - capacity + 1 * capacity) at 2 by lia.
    rewrite Z.mod_add by lia.
    destruct (Z.eq_dec (e + p - capacity) capacity) as [Heq|Hne].
    + exfalso. lia.
    + rewrite Z.mod_small by lia. lia.
Qed.

Lemma reader_out (rl : pc T) (e : Z) :
  reader_holds rl = false ->
  extraction_base capacity rl e = e /\ in_flight_pop rl = [] /\
  fetched rl = None.
Proof. destruct rl; cbn; intros H; try discriminate H; auto. Qed.

Lemma writer_out (wl : pc T) (i : Z) :
  writer_holds wl = false ->
  insertion_base capacity wl i = i /\ stored wl = None /\
  needs_room wl = false.
Proof. destruct wl; cbn; intros H; try discriminate H; auto. Qed.

Ltac duet_simple :=
  first [ reflexivity | assumption | lia | discriminate
        | (intros; discriminate) | (intros; lia) ].

(** The log of a thread grew by one event: the lists of pushed and popped
    values follow. *)
Lemma pushed_snoc (log : list (event T)) (ev : event T) :
  pushed (log ++ [ev]) = pushed log ++ option_list (pushed_of ev).
Proof. rewrite pushed_app. unfold pushed. cbn. destruct (pushed_of ev); reflexivity. Qed.

Lemma popped_snoc (log : list (event T)) (ev : event T) :
  popped (log ++ [ev]) = popped log ++ option_list (popped_of ev).
Proof. rewrite popped_app. unfold popped. cbn. destruct (popped_of ev); reflexivity. Qed.

Ltac log_grew :=
  rewrite ?pushed_snoc, ?popped_snoc;
  cbn [pushed_of popped_of option_list];
  rewrite ?app_nil_r.

Lemma duet_step_writer (s : system T) (xs vs : list T) (wl rl : pc T)
    (wlog rlog : list (event T)) :
  duet_inv capacity s xs vs wl rl wlog rlog ->
  exists s' xs' wl' wlog',
    sys_step capacity 0%nat s = Some s' /\
    duet_inv capacity s' xs' vs wl' rl wlog' rlog.
Proof.
  destruct s as [f ths].
  intros [Hth Hw Hr Hl HI HE Hp Hm Hx Hroom Hitem Hring Hst Hfe Hfifo].
  cbn [shared threads] in *. subst ths.
  destruct f as [ev m its I E p].
  cbn [DataAvailableEvent mutex items InsertionIndex ExtractionIndex population] in *.
  unfold sys_step. cbn [threads shared lookup list_lookup].
  destruct wl; try discriminate Hw; clear Hw;
    cbn [writer_holds in_flight_push stored insertion_base needs_room andb]
      in Hm, Hx, Hroom, Hring, Hst, Hfifo.
  - (* between calls *)
    destruct xs as [|x xs]; run_stmt.
    + exists (mkSystem (mkFifo ev m its I E p)
                       [mkThread [] Idle wlog; mkThread (map CallPopTry vs) rl rlog]),
             [], Idle, wlog.
      split; [reflexivity|]. split; cbn; try duet_simple.
    + eexists _, xs, (PushEntry x), wlog.
      split; [reflexivity|]. split; cbn; try duet_simple.
  - (* the first test *)
    run_stmt.
    destruct (Z.leb_spec capacity p).
    + eexists _, xs, Idle, (wlog ++ [Pushed item FIFO_STATUS_FULL]).
      split; [reflexivity|]. split; cbn; try duet_simple.
      log_grew. rewrite app_nil_r in Hfifo. exact Hfifo.
    + eexists _, xs, (PushTryEnter item), wlog.
      split; [reflexivity|]. split; cbn; try duet_simple.
  - (* TryEnterCriticalSection *)
    destruct (reader_holds rl) eqn:Hrh; subst m; run_stmt.
    + eexists _, xs, Idle, (wlog ++ [Pushed item FIFO_STATUS_LOCKED]).
      split; [reflexivity|]. split; cbn; rewrite ?Hrh; try duet_simple.
      log_grew. rewrite app_nil_r in Hfifo. exact Hfifo.
    + eexists _, xs, (PushRecheck item), wlog.
      split; [reflexivity|]. split; cbn; rewrite ?Hrh; try duet_simple.
  - (* the second test *)
    subst m. run_stmt.
    destruct (Z.leb_spec capacity p).
    + eexists _, xs, (PushPreempted item), wlog.
      split; [reflexivity|]. split; cbn; try duet_simple.
    + eexists _, xs, (PushStore item), wlog.
      split; [reflexivity|]. split; cbn; try duet_simple.
  - (* LeaveCriticalSection, PREEMPTED *)
    subst m. run_stmt.
    eexists _, xs, Idle, (wlog ++ [Pushed item FIFO_STATUS_PREEMPTED]).
    split; [reflexivity|]. split; cbn; rewrite ?Hx; try duet_simple.
    log_grew. rewrite app_nil_r in Hfifo. exact Hfifo.
  - (* items[InsertionIndex] = item *)
    subst m. run_stmt.
    rewrite (store_in_range I (length its) Hl HI). cbn.
    destruct (reader_out rl E Hx) as (HbE & Hfl & Hfd).
    rewrite HbE in *.
    destruct (ring_position E p HE Hp) as [Hpos Hsum].
    specialize (Hroom eq_refl).
    eexists _, xs, (PushBump item), wlog.
    split; [reflexivity|]. split; cbn; rewrite ?HbE; try duet_simple.
    + rewrite length_insert. exact Hl.
    + intros x [= <-]. apply list_lookup_insert_eq. lia.
    + rewrite Hfd. intros x Hsome. discriminate Hsome.
    + rewrite Hfifo. do 2 f_equal. symmetry.
      apply ring_keep; lia.
  - (* InsertionIndex = (InsertionIndex + 1) % capacity *)
    subst m. run_stmt.
    rewrite wrap_small by (rewrite ?uint_range_value in *; lia).
    assert (HI' : 0 <= (I + 1) mod capacity < capacity)
      by (apply Z.mod_pos_bound; lia).
    eexists _, xs, (PushIncrement item), wlog.
    split; [reflexivity|].
    split; cbn; rewrite ?base_after_bump by exact HI; try duet_simple.
  - (* population++ *)
    subst m. run_stmt.
    specialize (Hroom eq_refl).
    rewrite wrap_small by (rewrite ?uint_range_value in *; lia).
    destruct (reader_out rl E Hx) as (HbE & Hfl & Hfd).
    rewrite HbE in *.
    destruct (ring_position E p HE Hp) as [Hpos Hsum].
    destruct (bump_after_base I HI) as [Hb HIb].
    pose proof (Hst item eq_refl) as Hslot.
    eexists _, xs, (PushLeave item), wlog.
    split; [reflexivity|]. split; cbn; rewrite ?HbE; try duet_simple.
    + replace (E + (p + 1)) with (E + p + 1) by lia.
      rewrite <- Z.add_mod_idemp_l by lia. rewrite <- Hring.
      destruct HIb as [[HIeq Hlt]|[HI0 Heq]].
      * rewrite Z.mod_small by lia. exact HIeq.
      * rewrite Heq, Z.mod_same by lia. exact HI0.
    + rewrite Hfl in *. cbn [app] in *.
      rewrite app_nil_r in Hfifo. rewrite Hfifo, <- app_assoc. f_equal.
      replace (Z.to_nat (p + 1)) with (S (Z.to_nat p)) by lia.
      symmetry. apply (ring_snoc its _ _ _ item Hslot). lia.
  - (* LeaveCriticalSection *)
    subst m. run_stmt.
    eexists _, xs, (PushSetEvent item), wlog.
    split; [reflexivity|]. split; cbn; rewrite ?Hx; try duet_simple.
  - (* SetEvent, SUCCESS *)
    run_stmt.
    eexists _, xs, Idle, (wlog ++ [Pushed item FIFO_STATUS_SUCCESS]).
    split; [reflexivity|]. split; cbn; try duet_simple.
    log_grew. exact Hfifo.
Qed.

Lemma duet_step_reader (s : system T) (xs vs : list T) (wl rl : pc T)
    (wlog rlog : list (event T)) :
  duet_inv capacity s xs vs wl rl wlog rlog ->
  exists s' vs' rl' rlog',
    sys_step capacity 1%nat s = Some s' /\
    duet_inv capacity s' xs vs' wl rl' wlog rlog'.
Proof.
  destruct s as [f ths].
  intros [Hth Hw Hr Hl HI HE Hp Hm Hx Hroom Hitem Hring Hst Hfe Hfifo].
  cbn [shared threads] in *. subst ths.
  destruct f as [ev m its I E p].
  cbn [DataAvailableEvent mutex items InsertionIndex ExtractionIndex population] in *.
  unfold sys_step. cbn [threads shared lookup list_lookup].
  destruct rl; try discriminate Hr; clear Hr;
    cbn [reader_holds in_flight_pop fetched extraction_base needs_item]
      in Hm, Hx, Hitem, Hring, Hfe, Hfifo;
    rewrite ?andb_false_r, ?andb_true_r in Hx.
  - (* between calls *)
    destruct vs as [|v vs]; run_stmt.
    + exists (mkSystem (mkFifo ev m its I E p)
                       [mkThread (map CallPush xs) wl wlog; mkThread [] Idle rlog]),
             [], Idle, rlog.
      split; [reflexivity|]. split; cbn; try duet_simple.
    + eexists _, vs, (TryEntry v), rlog.
      split; [reflexivity|]. split; cbn; try duet_simple.
  - (* the test *)
    run_stmt.
    destruct (Z.eqb_spec p 0).
    + eexists _, vs, Idle, (rlog ++ [TriedPop FIFO_STATUS_EMPTY itemPtr]).
      split; [reflexivity|]. split; cbn; try duet_simple.
      log_grew. exact Hfifo.
    + eexists _, vs, (TryEnter itemPtr), rlog.
      split; [reflexivity|]. split; cbn; try duet_simple.
  - (* EnterCriticalSection *)
    destruct (writer_holds wl) eqn:Hwh; subst m; run_stmt.
    + exists (mkSystem (mkFifo ev (Some 0%nat) its I E p)
                       [mkThread (map CallPush xs) wl wlog;
                        mkThread (map CallPopTry vs) (TryEnter itemPtr) rlog]),
             vs, (TryEnter itemPtr), rlog.
      split; [reflexivity|]. split; cbn; rewrite ?Hwh; try duet_simple.
    + eexists _, vs, (TryRead itemPtr), rlog.
      split; [reflexivity|]. split; cbn; rewrite ?Hwh; try duet_simple.
  - (* *itemPtr = items[ExtractionIndex] *)
    rewrite Hx in Hm. subst m. run_stmt.
    destruct (lookup_lt_is_Some_2 its (Z.to_nat E)) as [x Hslot]; [lia|].
    rewrite Hslot.
    destruct (Z.leb_spec 0 E); [|lia]. cbn.
    eexists _, vs, (TryBump x), rlog.
    split; [reflexivity|]. split; cbn; rewrite ?Hx; try duet_simple.
    intros y [= <-]. exact Hslot.
  - (* ExtractionIndex = (ExtractionIndex + 1) % capacity *)
    rewrite Hx in Hm. subst m. run_stmt.
    rewrite wrap_small by (rewrite ?uint_range_value in *; lia).
    assert (HE' : 0 <= (E + 1) mod capacity < capacity)
      by (apply Z.mod_pos_bound; lia).
    eexists _, vs, (TryDecrement itemPtr), rlog.
    split; [reflexivity|].
    split; cbn; rewrite ?Hx, ?base_after_bump by exact HE; try duet_simple.
  - (* population-- *)
    rewrite Hx in Hm. subst m. run_stmt.
    specialize (Hitem eq_refl).
    rewrite wrap_small by (rewrite ?uint_range_value in *; lia).
    destruct (bump_after_base E HE) as [Hb HEb].
    pose proof (Hfe itemPtr eq_refl) as Hslot.
    remember ((E - 1) mod capacity) as b eqn:Hbdef. clear Hbdef.
    eexists _, vs, (TryCheck itemPtr), rlog.
    split; [reflexivity|]. split; cbn; rewrite ?Hx; try duet_simple.
    + rewrite Hring.
      destruct HEb as [[HEeq Hlt]|[HE0 Heq]].
      * f_equal. lia.
      * replace (b + p) with (E + (p - 1) + 1 * capacity) by lia.
        rewrite Z.mod_add by lia. reflexivity.
    + rewrite Hfifo. f_equal.
      replace (Z.to_nat p) with (S (Z.to_nat (p - 1))) by lia.
      apply ring_pop; [exact Hslot| |lia].
      destruct HEb as [[HEeq Hlt]|[HE0 Heq]]; [left|right]; lia.
  - (* the test after the decrement *)
    rewrite Hx in Hm. subst m. run_stmt.
    destruct (Z.eqb_spec p 0).
    + eexists _, vs, (TryReset itemPtr), rlog.
      split; [reflexivity|]. split; cbn; rewrite ?Hx; try duet_simple.
    + eexists _, vs, (TryLeave itemPtr), rlog.
      split; [reflexivity|]. split; cbn; rewrite ?Hx; try duet_simple.
  - (* ResetEvent *)
    rewrite Hx in Hm. subst m. run_stmt.
    eexists _, vs, (TryLeave itemPtr), rlog.
    split; [reflexivity|]. split; cbn; rewrite ?Hx; try duet_simple.
  - (* LeaveCriticalSection, SUCCESS *)
    rewrite Hx in Hm. subst m. run_stmt.
    eexists _, vs, Idle, (rlog ++ [TriedPop FIFO_STATUS_SUCCESS itemPtr]).
    split; [reflexivity|]. split; cbn; rewrite ?Hx; try duet_simple.
    log_grew. rewrite Hfifo, <- app_assoc. reflexivity.
Qed.

Lemma duet_step_other (s : system T) (xs vs : list T) (wl rl : pc T)
    (wlog rlog : list (event T)) (t : tid) :
  duet_inv capacity s xs vs wl rl wlog rlog -> (2 <= t)%nat ->
  sys_step capacity t s = Some s.
Proof.
  intros Hinv Ht. unfold sys_step. rewrite (duet_threads _ _ _ _ _ _ _ _ Hinv).
  destruct t as [|[|t]]; [lia|lia|reflexivity].
Qed.

Lemma duet_run (sched : list tid) :
  forall (s : system T) (xs vs : list T) (wl rl : pc T)
         (wlog rlog : list (event T)),
    duet_inv capacity s xs vs wl rl wlog rlog ->
    exists s' xs' vs' wl' rl' wlog' rlog',
      run capacity sched s = Some s' /\
      duet_inv capacity s' xs' vs' wl' rl' wlog' rlog'.
Proof.
  induction sched as [|t sched IH]; intros s xs vs wl rl wlog rlog Hinv.
  - exists s, xs, vs, wl, rl, wlog, rlog. split; [reflexivity|exact Hinv].
  - cbn [run]. destruct t as [|[|t]].
    + destruct (duet_step_writer _ _ _ _ _ _ _ Hinv)
        as (s1 & xs1 & wl1 & wlog1 & -> & Hinv1).
      exact (IH _ _ _ _ _ _ _ Hinv1).
    + destruct (duet_step_reader _ _ _ _ _ _ _ Hinv)
        as (s1 & vs1 & rl1 & rlog1 & -> & Hinv1).
      exact (IH _ _ _ _ _ _ _ Hinv1).
    + rewrite (duet_step_other _ _ _ _ _ _ _ (S (S t)) Hinv) by lia.
      exact (IH _ _ _ _ _ _ _ Hinv).
Qed.

Lemma duet_start (stale xs vs : list T) :
  Z.of_nat (length stale) = capacity ->
  duet_inv capacity (producer_consumer stale xs vs) xs vs Idle Idle [] [].
Proof.
  intros Hl. split; cbn; duet_simple.
Qed.

(** X3.  Calls that overlap, without [pop]: one thread pushing and one thread
    calling [pop_try], their statements interleaved in any order: the run
    stays inside defined behaviour, the
    population stays between 0 and the capacity, the values popped so far
    are the first of the values pushed so far (with the one whose [push]
    has counted it and not yet returned), and when both threads are through
    the pushed values are the popped values followed by what is left in the
    queue. *)
Theorem writer_reader_interleaved (stale xs vs : list T) (sched : list tid) :
  Z.of_nat (length stale) = capacity ->
  exists s' W R,
    run capacity sched (producer_consumer stale xs vs) = Some s' /\
    threads s' = [W; R] /\
    0 <= population (shared s') <= capacity /\
    (exists more, (length more <= 1)%nat /\
       forall i x, popped (done R) !! i = Some x ->
                   (pushed (done W) ++ more) !! i = Some x) /\
    (finished W = true -> finished R = true ->
     pushed (done W) = popped (done R) ++ contents (shared s')).
Proof.
  intros Hl.
  destruct (duet_run sched _ _ _ _ _ _ _ (duet_start stale xs vs Hl))
    as (s' & xs' & vs' & wl & rl & wlog & rlog & Hrun & Hinv).
  destruct Hinv as [Hth Hw Hr _ _ _ Hp _ _ _ _ _ _ _ Hfifo].
  eexists s', _, _. split; [exact Hrun|]. split; [exact Hth|].
  split; [exact Hp|]. cbn [done]. split.
  - exists (in_flight_push wl). split.
    + destruct wl; cbn; lia.
    + intros i x Hi. rewrite Hfifo. apply lookup_app_l_Some, Hi.
  - intros Hfw Hfr. unfold finished in Hfw, Hfr. cbn in Hfw, Hfr.
    destruct (map CallPush xs'); [|discriminate Hfw].
    destruct (map CallPopTry vs'); [|discriminate Hfr].
    destruct wl; try discriminate Hfw. destruct rl; try discriminate Hfr.
    cbn in Hfifo. rewrite app_nil_r in Hfifo. exact Hfifo.
Qed.

(** ** Every outcome of a call that is not interrupted *)

Lemma contents_length (f : Fifo T) :
  fifo_inv capacity f -> Z.of_nat (length (contents f)) = population f.
Proof.
  intros [[Hl Hi He Hp] Hb _ _ _]. unfold contents.
  rewrite length_take, length_drop, length_app. lia.
Qed.

(** X5.  A [push] that no other thread interrupts returns at once, whoever
    owns the mutex: FULL when the population has reached the capacity,
    LOCKED when there is room and another thread owns the mutex, SUCCESS
    when there is room and the mutex is free.  It never returns PREEMPTED
    or EMPTY, and it leaves the object untouched unless it returns
    SUCCESS. *)
Theorem push_uninterrupted (me : tid) (item : T) (f : Fifo T) :
  fifo_wf capacity f -> mutex f <> Some me ->
  (capacity <= population f ->
   push capacity me item f = Returns FIFO_STATUS_FULL f) /\
  (population f < capacity -> mutex f <> None ->
   push capacity me item f = Returns FIFO_STATUS_LOCKED f) /\
  (population f < capacity -> mutex f = None ->
   push capacity me item f =
     Returns FIFO_STATUS_SUCCESS
       (mkFifo true None (<[Z.to_nat (InsertionIndex f) := item]> (items f))
               ((InsertionIndex f + 1) mod capacity) (ExtractionIndex f)
               (population f + 1))) /\
  (exists st f', push capacity me item f = Returns st f' /\
     st <> FIFO_STATUS_PREEMPTED /\ st <> FIFO_STATUS_EMPTY /\
     (st <> FIFO_STATUS_SUCCESS -> f' = f)).
Proof.
  intros Hwf Hme.
  assert (Hfull : capacity <= population f ->
                  push capacity me item f = Returns FIFO_STATUS_FULL f).
  { intros Hge. run_call.
    destruct (Z.leb_spec capacity (population f)); [reflexivity|lia]. }
  assert (Hlocked : population f < capacity -> mutex f <> None ->
                    push capacity me item f = Returns FIFO_STATUS_LOCKED f).
  { intros Hlt Hm. run_call.
    destruct (Z.leb_spec capacity (population f)); [lia|]. cbn.
    destruct (mutex f) as [o|] eqn:Ho; [|congruence].
    destruct (Nat.eqb_spec o me) as [->|_]; [congruence|]. reflexivity. }
  pose proof (push_returns me item f Hwf) as Hok.
  split; [exact Hfull|]. split; [exact Hlocked|].
  split; [intros Hlt Hm; exact (Hok Hm Hlt)|].
  destruct (Z_lt_le_dec (population f) capacity) as [Hlt|Hge].
  - destruct (mutex f) as [o|] eqn:Ho.
    + exists FIFO_STATUS_LOCKED, f.
      split; [apply Hlocked; [exact Hlt|discriminate]|].
      repeat split; try discriminate.
    + eexists FIFO_STATUS_SUCCESS, _.
      split; [exact (Hok eq_refl Hlt)|].
      repeat split; try discriminate. intros H; contradiction H; reflexivity.
  - exists FIFO_STATUS_FULL, f. split; [exact (Hfull Hge)|].
    repeat split; try discriminate.
Qed.

(** X6.  Both dequeue calls can put the caller to sleep, and on a
    well-formed object they do nothing else than return or sleep:
    [pop_try] sleeps exactly when the queue is not empty and another thread
    owns the mutex; [pop] sleeps exactly when another thread owns the
    mutex, or the queue is empty and the Event is not signalled. *)
Theorem dequeue_blocks (me : tid) (itemPtr : T) (f : Fifo T) :
  fifo_wf capacity f -> mutex f <> Some me ->
  (pop_try capacity me itemPtr f = Waits <->
     population f <> 0 /\ mutex f <> None) /\
  (pop capacity me itemPtr f = Waits <->
     (population f = 0 /\ DataAvailableEvent f = false) \/ mutex f <> None) /\
  pop_try capacity me itemPtr f <> Undefined /\
  pop capacity me itemPtr f <> Undefined.
Proof.
  intros [Hl Hi He Hp] Hme.
  destruct (slot_in_range f (ExtractionIndex f) Hl He) as [x Hx].
  destruct f as [ev m its I E p]; cbn in Hl, Hi, He, Hp, Hme, Hx.
  cbn [population DataAvailableEvent mutex].
  assert (Hlow : (0 <=? E) = true) by (apply Z.leb_le; lia).
  destruct m as [o|].
  - assert (Ho : Nat.eqb o me = false).
    { apply Nat.eqb_neq. intros ->. apply Hme. reflexivity. }
    run_call.
    destruct (Z.eqb_spec p 0) as [E0|E0]; cbn; [destruct ev; cbn|];
      rewrite ?Ho; repeat split; try discriminate; try tauto;
      intros _; right; discriminate.
  - run_call.
    destruct (Z.eqb_spec p 0) as [E0|E0]; cbn; [destruct ev; cbn|];
      rewrite ?Hx, ?Hlow; cbn;
      try (destruct (wrap (p - 1) =? 0); cbn; rewrite Nat.eqb_refl);
      repeat split; try discriminate; try tauto;
      try (intros [_ H]; contradiction H; reflexivity);
      intros [[H1 H2]|H]; try discriminate; try contradiction;
      contradiction H; reflexivity.
Qed.





(** ** Whole calls of one thread *)

Lemma burst_push (me : tid) (x : T) (rest : list (call T))
    (log : list (event T)) (f f' : Fifo T) (st : status) :
  push capacity me x f = Returns st f' ->
  burst capacity CALL_STATEMENTS me (mkThread (CallPush x :: rest) Idle log) f =
    Some (mkThread rest Idle (log ++ [Pushed x st]), f').
Proof.
  intros Hpush. unfold CALL_STATEMENTS. rewrite burst_start. cbn [entry].
  apply burst_alone; [|reflexivity]. rewrite alone_push, Hpush. reflexivity.
Qed.

Lemma fill_run (xs : list T) :
  forall (f : Fifo T) (log : list (event T)),
    fifo_inv capacity f ->
    exists f',
      run_turns capacity (replicate (length xs) 0%nat)
        (mkSystem f [mkThread (map CallPush xs) Idle log]) =
        Some (mkSystem f'
                [mkThread [] Idle
                   (log ++
                    map (fun x => Pushed x FIFO_STATUS_SUCCESS)
                        (take (Z.to_nat (capacity - population f)) xs) ++
                    map (fun x => Pushed x FIFO_STATUS_FULL)
                        (drop (Z.to_nat (capacity - population f)) xs))],
              map (fun x => Pushed x FIFO_STATUS_SUCCESS)
                  (take (Z.to_nat (capacity - population f)) xs) ++
              map (fun x => Pushed x FIFO_STATUS_FULL)
                  (drop (Z.to_nat (capacity - population f)) xs)) /\
      fifo_inv capacity f' /\
      contents f' =
        contents f ++ take (Z.to_nat (capacity - population f)) xs.
Proof.
  induction xs as [|x xs IH]; intros f log Hinv.
  - exists f. rewrite take_nil, drop_nil. cbn. rewrite !app_nil_r.
    split; [reflexivity|]. split; [exact Hinv|reflexivity].
  - cbn [length replicate map run_turns]. unfold turn.
    cbn [threads shared lookup list_lookup].
    destruct (Z_lt_le_dec (population f) capacity) as [Hlt|Hge].
    + destruct (fifo_inv_push 0%nat x f Hinv Hlt) as (f1 & Hpush & Hinv1 & Hc1 & Hn1).
      rewrite (burst_push _ _ _ _ _ _ _ Hpush).
      cbn [done insert list_insert]. rewrite own_log.
      destruct (IH f1 (log ++ [Pushed x FIFO_STATUS_SUCCESS]) Hinv1)
        as (f' & Hrun & Hinv' & Hc').
      pose proof (wf_population _ _ (inv_wf _ _ Hinv)) as Hp.
      replace (Z.to_nat (capacity - population f))
        with (S (Z.to_nat (capacity - population f1))) by lia.
      rewrite Hrun. exists f'. cbn [take drop map app].
      rewrite <- !app_assoc. cbn [app].
      split; [reflexivity|]. split; [exact Hinv'|].
      rewrite Hc', Hc1, <- app_assoc. reflexivity.
    + rewrite (burst_push _ _ _ _ _ _ _ (push_when_full 0%nat x f Hge)).
      cbn [done insert list_insert]. rewrite own_log.
      destruct (IH f (log ++ [Pushed x FIFO_STATUS_FULL]) Hinv)
        as (f' & Hrun & Hinv' & Hc').
      replace (Z.to_nat (capacity - population f)) with 0%nat in * by lia.
      rewrite Hrun. exists f'. rewrite !take_0, !drop_0 in *.
      cbn [map app]. rewrite <- !app_assoc. cbn [app].
      split; [reflexivity|]. split; [exact Hinv'|exact Hc'].
Qed.

(** X10.  One thread that pushes the items [xs] on a new queue, call after
    call: the first [capacity] pushes return SUCCESS, every later one
    returns FULL, and the queue ends up holding the first [capacity] items
    in the order they were pushed. *)
Theorem fill_to_capacity (stale xs : list T) :
  Z.of_nat (length stale) = capacity ->
  exists f',
    run_turns capacity (replicate (length xs) 0%nat)
              (boot stale [map CallPush xs]) =
      Some (mkSystem f'
              [mkThread [] Idle
                 (map (fun x => Pushed x FIFO_STATUS_SUCCESS)
                      (take (Z.to_nat capacity) xs) ++
                  map (fun x => Pushed x FIFO_STATUS_FULL)
                      (drop (Z.to_nat capacity) xs))],
            map (fun x => Pushed x FIFO_STATUS_SUCCESS)
                (take (Z.to_nat capacity) xs) ++
            map (fun x => Pushed x FIFO_STATUS_FULL)
                (drop (Z.to_nat capacity) xs)) /\
    contents f' = take (Z.to_nat capacity) xs /\
    population f' = Z.min capacity (Z.of_nat (length xs)).
Proof.
  intros Hl.
  destruct (fill_run xs (Fifo_new stale) [] (fifo_inv_new stale Hl))
    as (f' & Hrun & Hinv' & Hc').
  cbn [Fifo_new population] in Hrun, Hc'. rewrite Z.sub_0_r in Hrun, Hc'.
  rewrite contents_new in Hc'. cbn [app] in Hrun, Hc'.
  exists f'. split; [exact Hrun|]. split; [exact Hc'|].
  rewrite <- (contents_length _ Hinv'), Hc', length_take. lia.
Qed.

Lemma burst_sleeps (me : tid) (itemPtr : T) (rest : list (call T))
    (log : list (event T)) (f : Fifo T) :
  fifo_inv capacity f -> population f = 0 ->
  burst capacity CALL_STATEMENTS me (mkThread (CallPop itemPtr :: rest) Idle log) f =
    Some (mkThread rest (PopWait itemPtr) log, f) /\
  burst capacity CALL_STATEMENTS me (mkThread rest (PopWait itemPtr) log) f =
    Some (mkThread rest (PopWait itemPtr) log, f).
Proof.
  intros Hinv H0. pose proof (inv_event _ _ Hinv) as Hev.
  destruct f as [ev m its I E p]; cbn in H0, Hev. subst p ev.
  unfold CALL_STATEMENTS. rewrite burst_start. cbn [entry].
  split.
  - burst_step. burst_step. reflexivity.
  - burst_step. reflexivity.
Qed.

Lemma burst_wakes (me : tid) (itemPtr : T) (rest : list (call T))
    (log : list (event T)) (f : Fifo T) :
  fifo_inv capacity f -> 0 < population f ->
  exists x,
    items f !! Z.to_nat (ExtractionIndex f) = Some x /\
    burst capacity CALL_STATEMENTS me (mkThread rest (PopWait itemPtr) log) f =
      Some (mkThread rest Idle (log ++ [Popped x]),
            mkFifo (if population f - 1 =? 0 then false else DataAvailableEvent f)
                   None (items f) (InsertionIndex f)
                   ((ExtractionIndex f + 1) mod capacity)
                   (population f - 1)).
Proof.
  intros Hinv Hpos.
  pose proof (inv_event _ _ Hinv) as Hev.
  pose proof (wf_population _ _ (inv_wf _ _ Hinv)) as Hp.
  destruct (pop_returns me itemPtr f (inv_wf _ _ Hinv) (inv_free _ _ Hinv) Hpos)
    as (x & Hx & _).
  exists x. split; [exact Hx|].
  apply burst_alone; [|reflexivity].
  destruct Hinv as [[Hl Hi He _] _ Hm _ _].
  destruct f as [ev m its I E p];
    cbn in Hev, Hp, Hpos, Hx, Hl, Hi, He, Hm.
  cbn [DataAvailableEvent mutex items InsertionIndex ExtractionIndex population].
  subst m.
  assert (Hempty : (p =? 0) = false) by (apply Z.eqb_neq; lia).
  rewrite Hempty in Hev. cbn in Hev. subst ev.
  assert (Hlow : (0 <=? E) = true) by (apply Z.leb_le; lia).
  assert (Hw1 : wrap (E + 1) = E + 1)
    by (apply wrap_small; rewrite ?uint_range_value in *; lia).
  assert (Hw2 : wrap (p - 1) = p - 1)
    by (apply wrap_small; rewrite ?uint_range_value in *; lia).
  unfold CALL_STATEMENTS.
  destruct (p - 1 =? 0) eqn:Hlast; alone_run.
Qed.

Lemma run_turns_app (sched1 sched2 : list tid) :
  forall (s s1 s2 : system T) (tr1 tr2 : list (event T)),
    run_turns capacity sched1 s = Some (s1, tr1) ->
    run_turns capacity sched2 s1 = Some (s2, tr2) ->
    run_turns capacity (sched1 ++ sched2) s = Some (s2, tr1 ++ tr2).
Proof.
  induction sched1 as [|t sched1 IH]; intros s s1 s2 tr1 tr2 H1 H2.
  - cbn in H1. injection H1 as <- <-. exact H2.
  - cbn in H1 |- *.
    destruct (turn capacity t s) as [[sa evs]|]; [|discriminate].
    destruct (run_turns capacity sched1 sa) as [[sb trb]|] eqn:Hrest;
      [|discriminate].
    injection H1 as <- <-.
    rewrite (IH _ _ _ _ _ Hrest H2), app_assoc. reflexivity.
Qed.

Lemma naps_run (f : Fifo T) (W : thread T) (d : T) (naps : nat) :
  fifo_inv capacity f -> population f = 0 ->
  run_turns capacity (replicate naps 1%nat)
            (mkSystem f [W; mkThread [] (PopWait d) []]) =
    Some (mkSystem f [W; mkThread [] (PopWait d) []], []).
Proof.
  intros Hinv H0. induction naps as [|naps IH]; [reflexivity|].
  cbn [replicate run_turns]. unfold turn.
  cbn [threads shared lookup list_lookup].
  rewrite (proj2 (burst_sleeps 1%nat d [] [] f Hinv H0)).
  cbn [done insert list_insert length drop]. rewrite IH. reflexivity.
Qed.

(** X11.  A [pop] on the empty queue sleeps and changes nothing, however
    often the reader gets the processor; once the writer has pushed an
    item the reader wakes up, [pop] returns that item, and the queue is
    empty again with the Event reset. *)
Theorem pop_sleeps_until_push (f : Fifo T) (x d : T) (naps : nat) :
  fifo_inv capacity f -> population f = 0 ->
  run_turns capacity (replicate (S naps) 1%nat)
            (mkSystem f [spawn [CallPush x]; spawn [CallPop d]]) =
    Some (mkSystem f [spawn [CallPush x]; mkThread [] (PopWait d) []], []) /\
  exists f2,
    run_turns capacity (replicate (S naps) 1%nat ++ [0; 1]%nat)
              (mkSystem f [spawn [CallPush x]; spawn [CallPop d]]) =
      Some (mkSystem f2 [mkThread [] Idle [Pushed x FIFO_STATUS_SUCCESS];
                         mkThread [] Idle [Popped x]],
            [Pushed x FIFO_STATUS_SUCCESS; Popped x]) /\
    population f2 = 0 /\ DataAvailableEvent f2 = false /\ mutex f2 = None /\
    contents f2 = [].
Proof.
  intros Hinv H0.
  assert (Hsleep :
    run_turns capacity (replicate (S naps) 1%nat)
              (mkSystem f [spawn [CallPush x]; spawn [CallPop d]]) =
      Some (mkSystem f [spawn [CallPush x]; mkThread [] (PopWait d) []], [])).
  { cbn [replicate run_turns]. unfold turn, spawn.
    cbn [threads shared lookup list_lookup].
    rewrite (proj1 (burst_sleeps 1%nat d [] [] f Hinv H0)).
    cbn [done insert list_insert length drop].
    rewrite (naps_run f _ d naps Hinv H0). reflexivity. }
  split; [exact Hsleep|].
  destruct (fifo_inv_push 0%nat x f Hinv) as (f1 & Hpush & Hinv1 & Hc1 & Hn1);
    [pose proof capacity_range; lia|].
  destruct (burst_wakes 1%nat d [] [] f1 Hinv1) as (y & Hy & Hwake); [lia|].
  destruct (fifo_inv_dequeue f1 y Hinv1) as [Hinv2 Hc2]; [lia|exact Hy|].
  assert (Hnil : contents f = []).
  { unfold contents. rewrite H0. reflexivity. }
  rewrite Hc1, Hnil in Hc2. cbn [app] in Hc2. injection Hc2 as <- Hnil2.
  eexists. split.
  - eapply (run_turns_app _ _ _ _ _ [] _ Hsleep).
    cbn [run_turns]. unfold turn, spawn.
    cbn [threads shared lookup list_lookup].
    rewrite (burst_push _ _ _ _ _ _ _ Hpush).
    cbn [done insert list_insert length drop app threads shared lookup list_lookup].
    rewrite Hwake. reflexivity.
  - split; [cbn [population]; lia|].
    split; [|split; [reflexivity|symmetry; exact Hnil2]].
    cbn [DataAvailableEvent].
    replace (population f1 - 1) with 0 by lia. reflexivity.
Qed.

(** ** The three ways to lose the last slot *)

(** The race goes through the stages [follow_stages] computes. *)
Lemma race_follow (a b : T) (sched : list tid) :
  forall (s : system T) (sa sb sa' sb' : stage),
    race_inv capacity s a b sa sb ->
    follow_stages sched sa sb = (sa', sb') ->
    exists s',
      run capacity sched s = Some s' /\ race_inv capacity s' a b sa' sb'.
Proof.
  induction sched as [|t sched IH]; intros s sa sb sa' sb' Hinv Hf.
  - cbn in Hf. injection Hf as <- <-. exists s. split; [reflexivity|exact Hinv].
  - destruct t as [|[|t]]; cbn [follow_stages] in Hf; cbn [run].
    + destruct (race_step_0 s a b sa sb Hinv) as (s1 & -> & Hinv1).
      exact (IH _ _ _ _ _ Hinv1 Hf).
    + destruct (race_step_1 s a b sa sb Hinv) as (s1 & -> & Hinv1).
      exact (IH _ _ _ _ _ Hinv1 Hf).
    + rewrite (race_step_other s a b sa sb (S (S t)) Hinv) by lia.
      exact (IH _ _ _ _ _ Hinv Hf).
Qed.

Lemma race_finish (s : system T) (a b : T) (ra rb : status) :
  race_inv capacity s a b (SDone ra) (SDone rb) ->
  exists g,
    s = mkSystem g [mkThread [] Idle [Pushed a ra];
                    mkThread [] Idle [Pushed b rb]] /\
    mutex g = None /\
    population g =
      capacity - 1 + (if counted (SDone ra) || counted (SDone rb) then 1 else 0).
Proof.
  intros [Hth _ Hm Hp _]. destruct s as [g ths]. cbn in Hth, Hm, Hp.
  subst ths. exists g. split; [reflexivity|]. split; [exact Hm|exact Hp].
Qed.

(** X12.  Each of the three rejections of [push] is returned to a writer
    that races another one for the last free slot.  Thread 0 gets
    PREEMPTED when the other writer runs its whole [push] between thread
    0's first test of the population and its TryEnterCriticalSection;
    LOCKED when it tries the mutex while the other writer is inside;
    FULL when it starts after the other writer has counted its item.  The
    other writer's push succeeds each time, and the queue ends full with
    the mutex free. *)
Theorem race_loser_statuses (f : Fifo T) (a b : T) :
  fifo_wf capacity f -> mutex f = None -> population f = capacity - 1 ->
  (exists g,
     run capacity preempted_schedule (two_producers f a b) =
       Some (mkSystem g [mkThread [] Idle [Pushed a FIFO_STATUS_PREEMPTED];
                         mkThread [] Idle [Pushed b FIFO_STATUS_SUCCESS]]) /\
     mutex g = None /\ population g = capacity) /\
  (exists g,
     run capacity locked_schedule (two_producers f a b) =
       Some (mkSystem g [mkThread [] Idle [Pushed a FIFO_STATUS_LOCKED];
                         mkThread [] Idle [Pushed b FIFO_STATUS_SUCCESS]]) /\
     mutex g = None /\ population g = capacity) /\
  (exists g,
     run capacity full_schedule (two_producers f a b) =
       Some (mkSystem g [mkThread [] Idle [Pushed a FIFO_STATUS_FULL];
                         mkThread [] Idle [Pushed b FIFO_STATUS_SUCCESS]]) /\
     mutex g = None /\ population g = capacity).
Proof.
  intros Hwf Hm Hp.
  pose proof (race_start f a b Hwf Hm Hp) as Hstart.
  assert (Hrace : forall sched ra,
    follow_stages sched SStart SStart = (SDone ra, SDone FIFO_STATUS_SUCCESS) ->
    exists g,
      run capacity sched (two_producers f a b) =
        Some (mkSystem g [mkThread [] Idle [Pushed a ra];
                          mkThread [] Idle [Pushed b FIFO_STATUS_SUCCESS]]) /\
      mutex g = None /\ population g = capacity).
  { intros sched ra Hf.
    destruct (race_follow a b sched _ _ _ _ _ Hstart Hf) as (s' & Hrun & Hinv).
    destruct (race_finish s' a b _ _ Hinv) as (g & -> & Hmg & Hpg).
    exists g. split; [exact Hrun|]. split; [exact Hmg|].
    rewrite Hpg. cbn [counted]. rewrite orb_true_r. lia. }
  split; [|split]; apply Hrace; reflexivity.
Qed.

(** ** Any threads, any calls, statement by statement *)

(** One statement of a thread that owns the mutex exactly when it is
    inside the section: the statement stays inside the array and leaves
    only a section the thread owns; it keeps the object well formed; the
    mutex changes hands only by this thread taking it free or giving it
    up; and a thread that cannot move is blocked for one of the three
    reasons. *)
Lemma thread_step_safe (t : tid) (th : thread T) (f : Fifo T) :
  fifo_wf capacity f ->
  (in_section (at_pc th) = true <-> mutex f = Some t) ->
  match thread_step capacity t th f with
  | Returns th' f' =>
      fifo_wf capacity f' /\
      (in_section (at_pc th') = true <-> mutex f' = Some t) /\
      (mutex f' = mutex f \/
       (mutex f = None /\ mutex f' = Some t) \/
       (mutex f = Some t /\ mutex f' = None))
  | Waits => blocked t th f
  | Undefined => False
  end.
Proof.
  intros [Hl Hi He Hp] Hown.
  destruct (slot_in_range f (ExtractionIndex f) Hl He) as [x0 Hx].
  destruct th as [td l log], f as [ev m its I E p].
  cbn [at_pc items InsertionIndex ExtractionIndex population mutex
       DataAvailableEvent] in *.
  assert (Hlow : (0 <=? E) = true) by (apply Z.leb_le; lia).
  pose proof (store_in_range I _ Hl Hi) as Hst.
  assert (HI : 0 <= wrap (I + 1) mod capacity < capacity)
    by (apply Z.mod_pos_bound; lia).
  assert (HE : 0 <= wrap (E + 1) mod capacity < capacity)
    by (apply Z.mod_pos_bound; lia).
  assert (Hp1 : 0 <= wrap (p + 1) < UINT_RANGE)
    by (apply Z.mod_pos_bound; reflexivity).
  assert (Hp2 : 0 <= wrap (p - 1) < UINT_RANGE)
    by (apply Z.mod_pos_bound; reflexivity).
  destruct l; cbn [in_section] in Hown.
  all: try (assert (Hm : m = Some t) by (apply Hown; reflexivity); subst m).
  all: try (assert (Hm : m <> Some t)
              by (intros Hm; apply Hown in Hm; discriminate Hm)).
  all: clear Hown.
  all: run_stmt.
  all: rewrite ?Hx, ?Hlow, ?Hst, ?Nat.eqb_refl; cbn.
  all: repeat (match goal with
    | |- context [match ?m with Some _ => _ | None => _ end] =>
        is_var m; destruct m as [o|]
    | |- context [Nat.eqb ?o ?t] =>
        destruct (Nat.eqb_spec o t) as [->|Hot]
    | |- context [if ?c then _ else _] => destruct c eqn:?
    | |- context [match ?l with [] => _ | _ :: _ => _ end] =>
        is_var l; destruct l as [|[?|?|?] ?]
    end; cbn).
  all: try (contradiction Hm; reflexivity).
  all: try (split; [constructor; cbn; rewrite ?length_insert; assumption|
                    split; [split; intros; congruence|tauto]]).
  all: try (apply BlockedFinished; reflexivity).
  all: try (eapply BlockedOnEvent; reflexivity).
  all: try (eapply (BlockedOnMutex _ _ _ o); [reflexivity|reflexivity|exact Hot]).
Qed.

Lemma safe_step (t : tid) (s : system T) :
  safe_inv capacity s ->
  exists s', sys_step capacity t s = Some s' /\ safe_inv capacity s'.
Proof.
  intros [Hwf Hown Howned]. unfold sys_step.
  destruct (threads s !! t) as [th|] eqn:Hth;
    [|exists s; split; [reflexivity|split; assumption]].
  pose proof (thread_step_safe t th (shared s) Hwf (Hown t th Hth)) as Hstep.
  destruct (thread_step capacity t th (shared s)) as [th' f'| |];
    [|exists s; split; [reflexivity|split; assumption]|contradiction].
  destruct Hstep as (Hwf' & Hown' & Hm).
  eexists. split; [reflexivity|].
  assert (Hlt : (t < length (threads s))%nat) by (eapply lookup_lt_Some; eauto).
  split; cbn [shared threads].
  - exact Hwf'.
  - intros u thu Hu. destruct (decide (u = t)) as [->|Hne].
    + rewrite list_lookup_insert_eq in Hu by exact Hlt.
      injection Hu as <-. exact Hown'.
    + rewrite list_lookup_insert_ne in Hu by congruence.
      specialize (Hown u thu Hu).
      destruct Hm as [Hm|[[Hm1 Hm2]|[Hm1 Hm2]]].
      * rewrite Hm. exact Hown.
      * rewrite Hm2. rewrite Hm1 in Hown.
        split; intros H; [apply Hown in H; discriminate H|congruence].
      * rewrite Hm2. rewrite Hm1 in Hown.
        split; intros H; [apply Hown in H; congruence|discriminate H].
  - intros o Ho. destruct (decide (o = t)) as [->|Hne].
    + rewrite list_lookup_insert_eq by exact Hlt. eauto.
    + rewrite list_lookup_insert_ne by congruence. apply Howned.
      destruct Hm as [Hm|[[Hm1 Hm2]|[Hm1 Hm2]]]; congruence.
Qed.

Lemma safe_run (sched : list tid) :
  forall s : system T,
    safe_inv capacity s ->
    exists s', run capacity sched s = Some s' /\ safe_inv capacity s'.
Proof.
  induction sched as [|t sched IH]; intros s Hinv.
  - exists s. split; [reflexivity|exact Hinv].
  - destruct (safe_step t s Hinv) as (s1 & Hstep & Hinv1).
    cbn [run]. rewrite Hstep. exact (IH s1 Hinv1).
Qed.

Lemma safe_boot (stale : list T) (pool : list (list (call T))) :
  Z.of_nat (length stale) = capacity -> safe_inv capacity (boot stale pool).
Proof.
  intros Hl. split; cbn [boot shared threads Fifo_new mutex].
  - exact (inv_wf _ _ (fifo_inv_new stale Hl)).
  - intros t th Hth. apply list_lookup_fmap_Some in Hth as (cs & -> & _).
    cbn. split; discriminate.
  - discriminate.
Qed.

(** X13.  Any number of threads, each making any calls of [push],
    [pop_try] and [pop] on a new queue, interleaved statement by statement
    in any order: no statement reads or writes outside the array, no thread
    leaves a section it does not own, the indices stay inside the array,
    and at most one thread at a time is between entering and leaving the
    critical section; that thread is the owner of the mutex. *)
Theorem interleaving_is_safe (stale : list T) (pool : list (list (call T)))
    (sched : list tid) :
  Z.of_nat (length stale) = capacity ->
  exists s',
    run capacity sched (boot stale pool) = Some s' /\
    fifo_wf capacity (shared s') /\
    (forall (t u : tid) (tht thu : thread T),
        threads s' !! t = Some tht -> threads s' !! u = Some thu ->
        in_section (at_pc tht) = true -> in_section (at_pc thu) = true ->
        t = u) /\
    (forall (t : tid) (th : thread T),
        threads s' !! t = Some th ->
        (in_section (at_pc th) = true <-> mutex (shared s') = Some t)).
Proof.
  intros Hl.
  destruct (safe_run sched _ (safe_boot stale pool Hl))
    as (s' & Hrun & [Hwf Hown Howned]).
  exists s'. split; [exact Hrun|]. split; [exact Hwf|].
  split; [|exact Hown].
  intros t u tht thu Ht Hu Hin_t Hin_u.
  apply (Hown t tht Ht) in Hin_t. apply (Hown u thu Hu) in Hin_u. congruence.
Qed.

(** X14.  No thread is stuck behind the mutex.  In every state such a
    program reaches, a thread that cannot make its next statement has made
    all its calls, or sleeps in the wait of [pop] with the Event not
    signalled, or waits for the mutex while its owner, another thread of
    the program, can make its next statement. *)
Theorem blocked_thread_has_cause (stale : list T)
    (pool : list (list (call T))) (sched : list tid) :
  Z.of_nat (length stale) = capacity ->
  exists s',
    run capacity sched (boot stale pool) = Some s' /\
    forall (t : tid) (th : thread T),
      threads s' !! t = Some th ->
      (exists th' f', thread_step capacity t th (shared s') = Returns th' f') \/
      finished th = true \/
      (exists itemPtr, at_pc th = PopWait itemPtr /\
                       DataAvailableEvent (shared s') = false) \/
      (exists (o : tid) (tho tho' : thread T) (f' : Fifo T),
          o <> t /\ mutex (shared s') = Some o /\
          threads s' !! o = Some tho /\
          thread_step capacity o tho (shared s') = Returns tho' f').
Proof.
  intros Hl.
  destruct (safe_run sched _ (safe_boot stale pool Hl))
    as (s' & Hrun & [Hwf Hown Howned]).
  exists s'. split; [exact Hrun|].
  intros t th Hth.
  pose proof (thread_step_safe t th (shared s') Hwf (Hown t th Hth)) as Hstep.
  destruct (thread_step capacity t th (shared s')) as [th' f'| |];
    [left; eauto| |contradiction].
  right. destruct Hstep as [Hfin|d Hd Hev|o Hout Hm Hne].
  - left. exact Hfin.
  - right. left. eauto.
  - right. right.
    destruct (Howned o Hm) as [tho Htho].
    pose proof (proj2 (Hown o tho Htho) Hm) as Hin.
    pose proof (thread_step_safe o tho (shared s') Hwf (Hown o tho Htho)) as Hso.
    destruct (thread_step capacity o tho (shared s')) as [tho' g| |] eqn:Hmove;
      [|exfalso|contradiction].
    + exists o, tho, tho', g. repeat split; assumption.
    + destruct Hso as [Hfin|d Hd _|o' Hout' _ _].
      * unfold finished in Hfin.
        destruct (at_pc tho), (todo tho); discriminate.
      * rewrite Hd in Hin. discriminate Hin.
      * congruence.
Qed.

End Properties.

(** * The class at its default capacity, on [int] *)

Lemma rig_capacity_range : 0 < FIFO_EXAMPLE_MAX_CAPACITY < UINT_RANGE.
Proof. split; reflexivity. Defined.

Lemma rig_wf (f : Fifo Z) :
  length (items f) = 5%nat ->
  (0 <=? InsertionIndex f) && (InsertionIndex f <? 5) = true ->
  (0 <=? ExtractionIndex f) && (ExtractionIndex f <? 5) = true ->
  (0 <=? population f) && (population f <? UINT_RANGE) = true ->
  fifo_wf FIFO_EXAMPLE_MAX_CAPACITY f.
Proof.
  intros Hl Hi He Hp.
  apply andb_true_iff in Hi as [Hi1 Hi2].
  apply andb_true_iff in He as [He1 He2].
  apply andb_true_iff in Hp as [Hp1 Hp2].
  apply Z.leb_le in Hi1, He1, Hp1. apply Z.ltb_lt in Hi2, He2, Hp2.
  split; unfold FIFO_EXAMPLE_MAX_CAPACITY.
  - rewrite Hl. reflexivity.
  - split; assumption.
  - split; assumption.
  - split; assumption.
Defined.

(** The run of [main]: the statuses and values it prints. *)
Example main_output :
  run_turns FIFO_EXAMPLE_MAX_CAPACITY main_schedule main_system =
  let printed :=
    [ TriedPop FIFO_STATUS_EMPTY (-1);
      Pushed 7 FIFO_STATUS_SUCCESS; Pushed 8 FIFO_STATUS_SUCCESS;
      TriedPop FIFO_STATUS_SUCCESS 7;
      Pushed 9 FIFO_STATUS_SUCCESS; Pushed 10 FIFO_STATUS_SUCCESS;
      Pushed 11 FIFO_STATUS_SUCCESS; Pushed 12 FIFO_STATUS_SUCCESS;
      Pushed 13 FIFO_STATUS_FULL;
      TriedPop FIFO_STATUS_SUCCESS 8; TriedPop FIFO_STATUS_SUCCESS 9;
      TriedPop FIFO_STATUS_SUCCESS 10; TriedPop FIFO_STATUS_SUCCESS 11;
      TriedPop FIFO_STATUS_SUCCESS 12; TriedPop FIFO_STATUS_EMPTY 7000 ] in
  Some (mkSystem (mkFifo false None [12; 8; 9; 10; 11] 1 1 0)
                 [mkThread [] Idle printed],
        printed).
Proof. vm_compute. reflexivity. Qed.

(** A [pop] on the empty queue sleeps, and returns the 7 once the writer has
    pushed it. *)
Example sleeper_output :
  run_turns FIFO_EXAMPLE_MAX_CAPACITY sleeper_schedule sleeper_system =
  Some (mkSystem (mkFifo false None [7; 8; -3; -4; -5] 2 2 0)
                 [ mkThread [] Idle [Pushed 7 FIFO_STATUS_SUCCESS;
                                     Pushed 8 FIFO_STATUS_SUCCESS];
                   mkThread [] Idle [Popped 7; Popped 8] ],
        [ Pushed 7 FIFO_STATUS_SUCCESS; Popped 7;
          Pushed 8 FIFO_STATUS_SUCCESS; Popped 8 ]).
Proof. vm_compute. reflexivity. Qed.

Lemma one_item_reachable : reachable FIFO_EXAMPLE_MAX_CAPACITY one_item_fifo.
Proof.
  exists rig_stale, [[CallPush 7]], [0%nat],
    (mkSystem one_item_fifo [mkThread [] Idle [Pushed 7 FIFO_STATUS_SUCCESS]]),
    [Pushed 7 FIFO_STATUS_SUCCESS].
  split; [reflexivity|]. split; [vm_compute; reflexivity|reflexivity].
Defined.

(** C8: [pop] does not test the population again after the wait.  With one
    writer and one reader: the writer's [push 7] is preempted between
    LeaveCriticalSection and SetEvent, the reader's [pop_try] takes the 7
    and leaves the queue empty, and the writer then signals the Event: the
    queue is empty and the Event says otherwise.  The reader's [pop] then
    passes the wait on the empty queue, returns the stale content of slot 1
    and takes the population from 0 to 4294967295. *)
Theorem pop_after_late_signal :
  run FIFO_EXAMPLE_MAX_CAPACITY
      (replicate 8 writer ++ replicate 9 reader ++ [writer])
      late_signal_system =
  Some (mkSystem
          (mkFifo true None [7; -2; -3; -4; -5] 1 1 0)
          [ mkThread [] Idle [Pushed 7 FIFO_STATUS_SUCCESS];
            mkThread [CallPop 2000] Idle [TriedPop FIFO_STATUS_SUCCESS 7] ]) /\
  run FIFO_EXAMPLE_MAX_CAPACITY late_signal_schedule late_signal_system =
  Some (mkSystem
          (mkFifo true None [7; -2; -3; -4; -5] 1 2 4294967295)
          [ mkThread [] Idle [Pushed 7 FIFO_STATUS_SUCCESS];
            mkThread [] Idle [TriedPop FIFO_STATUS_SUCCESS 7; Popped (-2)] ]).
Proof. split; vm_compute; reflexivity. Qed.

(** C1: one writer pushes 7 and one reader calls [pop_try] and then [pop], on
    a freshly constructed queue; the writer is preempted between
    LeaveCriticalSection and SetEvent.  There is a single consumer and a
    single push, and the two pops return 7 and then -2, a value that was
    never pushed: the pops do not return the pushed values in order. *)
Theorem pop_returns_unpushed_item :
  exists s' W R,
    run FIFO_EXAMPLE_MAX_CAPACITY late_signal_schedule late_signal_system =
      Some s' /\
    threads s' = [W; R] /\
    finished W = true /\ finished R = true /\
    pushed (done W) = [7] /\
    popped (done R) = [7; -2].
Proof.
  eexists _, _, _. split; [vm_compute; reflexivity|].
  split; [reflexivity|]. repeat split; reflexivity.
Qed.

(** C2: one [push], one [pop_try] and one [pop] on a freshly constructed
    queue of capacity 5, the [push] preempted between LeaveCriticalSection
    and SetEvent: the population ends at 4294967295, above the capacity,
    because the decrement of [pop] on the empty queue wraps around. *)
Theorem population_leaves_bounds :
  exists s',
    run FIFO_EXAMPLE_MAX_CAPACITY late_signal_schedule late_signal_system =
      Some s' /\
    population (shared s') = 4294967295 /\
    FIFO_EXAMPLE_MAX_CAPACITY < population (shared s').
Proof.
  eexists. split; [vm_compute; reflexivity|]. split; reflexivity.
Qed.

(** C6 as stated fails: after [push 7], a push of 8 succeeds and the pop
    that follows yields 7, not 8. *)
Lemma push_then_pop_not_same :
  ~ (forall (f f1 : Fifo Z) (X : Z),
        reachable FIFO_EXAMPLE_MAX_CAPACITY f ->
        push FIFO_EXAMPLE_MAX_CAPACITY writer X f = Returns FIFO_STATUS_SUCCESS f1 ->
        exists f2,
          pop_try FIFO_EXAMPLE_MAX_CAPACITY reader 0 f1 =
            Returns (FIFO_STATUS_SUCCESS, X) f2 /\
          population f2 = population f).
Proof.
  intros H.
  destruct (H one_item_fifo (mkFifo true None [7; 8; -3; -4; -5] 2 0 2) 8)
    as (f2 & Hpop & _).
  - exact one_item_reachable.
  - vm_compute. reflexivity.
  - vm_compute in Hpop. discriminate Hpop.
Qed.

(** ** The theorems at work on the test rig *)



Lemma writer_reader_on_rig :
  Z.of_nat (length rig_stale) = FIFO_EXAMPLE_MAX_CAPACITY /\
  exists s' W R,
    run FIFO_EXAMPLE_MAX_CAPACITY
        (replicate 8 writer ++ replicate 9 reader ++ [writer; reader])
        (producer_consumer rig_stale [7; 8] [1000; 2000]) = Some s' /\
    threads s' = [W; R] /\
    0 <= population (shared s') <= FIFO_EXAMPLE_MAX_CAPACITY.
Proof.
  split; [reflexivity|].
  destruct (writer_reader_interleaved
              FIFO_EXAMPLE_MAX_CAPACITY rig_capacity_range rig_stale
              [7; 8] [1000; 2000]
              (replicate 8 writer ++ replicate 9 reader ++ [writer; reader])
              eq_refl)
    as (s' & W & R & Hrun & Hth & Hp & _).
  exists s', W, R. split; [exact Hrun|]. split; [exact Hth|exact Hp].
Defined.

Lemma push_full_pop_try_empty_rig :
  population five_item_fifo = FIFO_EXAMPLE_MAX_CAPACITY /\
  push FIFO_EXAMPLE_MAX_CAPACITY writer 6 five_item_fifo =
    Returns FIFO_STATUS_FULL five_item_fifo /\
  population int_test_fifo = 0 /\
  pop_try FIFO_EXAMPLE_MAX_CAPACITY reader (-1) int_test_fifo =
    Returns (FIFO_STATUS_EMPTY, -1) int_test_fifo.
Proof.
  split; [reflexivity|]. split.
  - apply (push_full_pop_try_empty FIFO_EXAMPLE_MAX_CAPACITY writer 6
                                   five_item_fifo). reflexivity.
  - split; [reflexivity|].
    apply (push_full_pop_try_empty FIFO_EXAMPLE_MAX_CAPACITY reader (-1)
                                   int_test_fifo). reflexivity.
Defined.

Lemma one_item_wf : fifo_wf FIFO_EXAMPLE_MAX_CAPACITY one_item_fifo.
Proof. apply rig_wf; reflexivity. Defined.

Lemma four_item_wf : fifo_wf FIFO_EXAMPLE_MAX_CAPACITY four_item_fifo.
Proof. apply rig_wf; reflexivity. Defined.

Lemma push_success_rig :
  fifo_wf FIFO_EXAMPLE_MAX_CAPACITY one_item_fifo /\
  push FIFO_EXAMPLE_MAX_CAPACITY writer 8 one_item_fifo =
    Returns FIFO_STATUS_SUCCESS (mkFifo true None [7; 8; -3; -4; -5] 2 0 2) /\
  exists g,
    alone FIFO_EXAMPLE_MAX_CAPACITY 7 writer
          (mkThread [] (PushEntry 8) []) one_item_fifo =
      Returns (mkThread [] (PushSetEvent 8) []) g /\
    mutex g = None /\
    DataAvailableEvent g = DataAvailableEvent one_item_fifo.
Proof.
  split; [exact one_item_wf|]. split; [reflexivity|].
  destruct (push_success FIFO_EXAMPLE_MAX_CAPACITY rig_capacity_range
              writer 8 one_item_fifo
              (mkFifo true None [7; 8; -3; -4; -5] 2 0 2) [] []
              one_item_wf eq_refl)
    as (_ & g & Hrun & Hm & Hev & _).
  exists g. split; [exact Hrun|]. split; [exact Hm|exact Hev].
Defined.

Lemma pop_try_success_rig :
  fifo_wf FIFO_EXAMPLE_MAX_CAPACITY one_item_fifo /\
  0 < population one_item_fifo /\
  mutex one_item_fifo = None /\
  exists x,
    items one_item_fifo !! Z.to_nat (ExtractionIndex one_item_fifo) = Some x /\
    pop_try FIFO_EXAMPLE_MAX_CAPACITY reader 1000 one_item_fifo =
      Returns (FIFO_STATUS_SUCCESS, x)
        (mkFifo (if population one_item_fifo - 1 =? 0 then false
                 else DataAvailableEvent one_item_fifo)
                None (items one_item_fifo) (InsertionIndex one_item_fifo)
                ((ExtractionIndex one_item_fifo + 1) mod FIFO_EXAMPLE_MAX_CAPACITY)
                (population one_item_fifo - 1)).
Proof.
  split; [exact one_item_wf|]. split; [reflexivity|]. split; [reflexivity|].
  exact (proj1 (pop_try_success FIFO_EXAMPLE_MAX_CAPACITY rig_capacity_range
                                reader 1000 one_item_fifo one_item_wf eq_refl)
               eq_refl).
Defined.

Lemma push_then_pop_rig :
  reachable FIFO_EXAMPLE_MAX_CAPACITY one_item_fifo /\
  push FIFO_EXAMPLE_MAX_CAPACITY writer 8 one_item_fifo =
    Returns FIFO_STATUS_SUCCESS (mkFifo true None [7; 8; -3; -4; -5] 2 0 2) /\
  exists y f2,
    pop_try FIFO_EXAMPLE_MAX_CAPACITY reader 1000
            (mkFifo true None [7; 8; -3; -4; -5] 2 0 2) =
      Returns (FIFO_STATUS_SUCCESS, y) f2 /\
    pop FIFO_EXAMPLE_MAX_CAPACITY reader 1000
        (mkFifo true None [7; 8; -3; -4; -5] 2 0 2) = Returns y f2 /\
    population f2 = population one_item_fifo /\
    y = hd 8 (contents one_item_fifo) /\
    (population one_item_fifo = 0 -> y = 8).
Proof.
  split; [exact one_item_reachable|]. split; [reflexivity|].
  exact (push_then_pop FIFO_EXAMPLE_MAX_CAPACITY rig_capacity_range
                       writer reader 8 1000 one_item_fifo
                       (mkFifo true None [7; 8; -3; -4; -5] 2 0 2)
                       one_item_reachable eq_refl).
Defined.

Lemma pop_same_as_pop_try_rig :
  0 < population one_item_fifo /\
  pop FIFO_EXAMPLE_MAX_CAPACITY reader 1000 one_item_fifo =
    match pop_try FIFO_EXAMPLE_MAX_CAPACITY reader 1000 one_item_fifo with
    | Returns (_, x) f' => Returns x f'
    | Waits => Waits
    | Undefined => Undefined
    end.
Proof.
  split; [reflexivity|].
  exact (proj1 (pop_same_as_pop_try FIFO_EXAMPLE_MAX_CAPACITY rig_capacity_range
                                    reader 1000 one_item_fifo eq_refl)).
Defined.

Lemma one_slot_one_winner_rig :
  fifo_wf FIFO_EXAMPLE_MAX_CAPACITY four_item_fifo /\
  mutex four_item_fifo = None /\
  population four_item_fifo = FIFO_EXAMPLE_MAX_CAPACITY - 1 /\
  exists s' A B,
    run FIFO_EXAMPLE_MAX_CAPACITY [0; 1; 0; 1; 0; 1; 0; 1]%nat
        (two_producers four_item_fifo 5 6) = Some s' /\
    threads s' = [A; B] /\
    succeeded A && succeeded B = false.
Proof.
  split; [exact four_item_wf|]. split; [reflexivity|]. split; [reflexivity|].
  destruct (one_slot_one_winner FIFO_EXAMPLE_MAX_CAPACITY rig_capacity_range
              four_item_fifo 5 6 [0; 1; 0; 1; 0; 1; 0; 1]%nat
              four_item_wf eq_refl eq_refl)
    as (s' & A & B & Hrun & Hth & Hone & _).
  exists s', A, B. split; [exact Hrun|]. split; [exact Hth|exact Hone].
Defined.

Lemma pop_try_empty_frame_rig :
  population int_test_fifo = 0 /\
  pop_try FIFO_EXAMPLE_MAX_CAPACITY reader (-1) int_test_fifo =
    Returns (FIFO_STATUS_EMPTY, -1) int_test_fifo.
Proof.
  split; [reflexivity|].
  exact (proj1 (pop_try_empty_frame FIFO_EXAMPLE_MAX_CAPACITY reader (-1)
                                    int_test_fifo [] [] eq_refl)).
Defined.

(** ** The status names and the test rig *)

(** X15.  Every status a member function can return indexes inside
    [status_Strings], the name found there is the name of its macro, and
    two statuses never print the same name. *)
Theorem status_names_in_table (st : status) (f : Fifo Z) :
  exists name : string,
    status_name st f = Returns name f /\
    (Z.to_nat (status_code st) < length status_Strings)%nat /\
    name = match st with
           | FIFO_STATUS_SUCCESS => "FIFO_STATUS_SUCCESS"
           | FIFO_STATUS_FULL => "FIFO_STATUS_FULL"
           | FIFO_STATUS_EMPTY => "FIFO_STATUS_EMPTY"
           | FIFO_STATUS_LOCKED => "FIFO_STATUS_LOCKED"
           | FIFO_STATUS_PREEMPTED => "FIFO_STATUS_PREEMPTED"
           end%string /\
    forall st' : status, status_name st' f = Returns name f -> st' = st.
Proof.
  destruct st; eexists; (split; [reflexivity|]); (split; [cbn; lia|]);
    (split; [reflexivity|]); intros [] H; try reflexivity; discriminate H.
Qed.

(** X16.  What [main] prints does not depend on what the memory of
    [items] held before: whatever the five slots contain at start-up, the
    population shown first is 0, the fifteen tests report the same
    statuses, populations and values, [main] returns 1, and no slot of the
    queue still holds its first content. *)
Theorem main_prints (stale : list Z) :
  length stale = 5%nat ->
  main stale =
    Returns
      (0,
       [ mkReport 1 "FIFO_STATUS_EMPTY" 0 (-1);
         mkReport 2 "FIFO_STATUS_SUCCESS" 1 7;
         mkReport 3 "FIFO_STATUS_SUCCESS" 2 8;
         mkReport 4 "FIFO_STATUS_SUCCESS" 1 7;
         mkReport 5 "FIFO_STATUS_SUCCESS" 2 9;
         mkReport 6 "FIFO_STATUS_SUCCESS" 3 10;
         mkReport 7 "FIFO_STATUS_SUCCESS" 4 11;
         mkReport 8 "FIFO_STATUS_SUCCESS" 5 12;
         mkReport 9 "FIFO_STATUS_FULL" 5 13;
         mkReport 10 "FIFO_STATUS_SUCCESS" 4 8;
         mkReport 11 "FIFO_STATUS_SUCCESS" 3 9;
         mkReport 12 "FIFO_STATUS_SUCCESS" 2 10;
         mkReport 13 "FIFO_STATUS_SUCCESS" 1 11;
         mkReport 14 "FIFO_STATUS_SUCCESS" 0 12;
         mkReport 15 "FIFO_STATUS_EMPTY" 0 7000 ],
       1)
      (mkFifo false None [12; 8; 9; 10; 11] 1 1 0).
Proof.
  intros Hl.
  destruct stale as [|a [|b [|c [|d [|e [|]]]]]]; try discriminate Hl.
  vm_compute. reflexivity.
Qed.

Lemma main_prints_rig :
  length rig_stale = 5%nat /\
  exists out f, main rig_stale = Returns (0, out, 1) f /\ length out = 15%nat.
Proof.
  split; [reflexivity|].
  eexists _, _. split; [exact (main_prints rig_stale eq_refl)|reflexivity].
Defined.

Lemma held_wf : fifo_wf FIFO_EXAMPLE_MAX_CAPACITY held_fifo.
Proof. apply rig_wf; reflexivity. Defined.

Lemma stale_signal_wf : fifo_wf FIFO_EXAMPLE_MAX_CAPACITY stale_signal_fifo.
Proof. apply rig_wf; reflexivity. Defined.

Lemma rig_inv : fifo_inv FIFO_EXAMPLE_MAX_CAPACITY int_test_fifo.
Proof.
  exact (fifo_inv_new FIFO_EXAMPLE_MAX_CAPACITY rig_capacity_range rig_stale
                      eq_refl).
Defined.

Lemma pop_passes_wait_on_empty_rig :
  fifo_wf FIFO_EXAMPLE_MAX_CAPACITY stale_signal_fifo /\
  mutex stale_signal_fifo = None /\
  population stale_signal_fifo = 0 /\
  DataAvailableEvent stale_signal_fifo = true /\
  exists x,
    items stale_signal_fifo !! Z.to_nat (ExtractionIndex stale_signal_fifo) =
      Some x /\
    pop FIFO_EXAMPLE_MAX_CAPACITY reader 2000 stale_signal_fifo =
      Returns x (mkFifo true None [7; -2; -3; -4; -5] 1 2 (UINT_RANGE - 1)).
Proof.
  split; [exact stale_signal_wf|]. repeat (split; [reflexivity|]).
  exact (pop_passes_wait_on_empty FIFO_EXAMPLE_MAX_CAPACITY rig_capacity_range
           reader 2000 stale_signal_fifo stale_signal_wf eq_refl eq_refl eq_refl).
Defined.

Lemma push_uninterrupted_rig :
  fifo_wf FIFO_EXAMPLE_MAX_CAPACITY held_fifo /\
  mutex held_fifo <> Some writer /\
  population held_fifo < FIFO_EXAMPLE_MAX_CAPACITY /\
  mutex held_fifo <> None /\
  push FIFO_EXAMPLE_MAX_CAPACITY writer 5 held_fifo =
    Returns FIFO_STATUS_LOCKED held_fifo.
Proof.
  assert (Hme : mutex held_fifo <> Some writer) by discriminate.
  assert (Hlt : population held_fifo < FIFO_EXAMPLE_MAX_CAPACITY) by reflexivity.
  assert (Hm : mutex held_fifo <> None) by discriminate.
  split; [exact held_wf|]. split; [exact Hme|]. split; [exact Hlt|].
  split; [exact Hm|].
  exact (proj1 (proj2 (push_uninterrupted FIFO_EXAMPLE_MAX_CAPACITY
                         rig_capacity_range writer 5 held_fifo held_wf Hme))
               Hlt Hm).
Defined.

Lemma dequeue_blocks_rig :
  fifo_wf FIFO_EXAMPLE_MAX_CAPACITY held_fifo /\
  mutex held_fifo <> Some writer /\
  pop_try FIFO_EXAMPLE_MAX_CAPACITY writer 1000 held_fifo = Waits /\
  pop FIFO_EXAMPLE_MAX_CAPACITY writer 1000 held_fifo = Waits.
Proof.
  assert (Hme : mutex held_fifo <> Some writer) by discriminate.
  split; [exact held_wf|]. split; [exact Hme|].
  destruct (dequeue_blocks FIFO_EXAMPLE_MAX_CAPACITY rig_capacity_range
              writer 1000 held_fifo held_wf Hme) as (Htry & Hpop & _).
  split.
  - apply Htry. split; discriminate.
  - apply Hpop. right. discriminate.
Defined.




Lemma fill_to_capacity_rig :
  Z.of_nat (length rig_stale) = FIFO_EXAMPLE_MAX_CAPACITY /\
  exists f',
    run_turns FIFO_EXAMPLE_MAX_CAPACITY (replicate 7 0%nat)
              (boot rig_stale [map CallPush [1; 2; 3; 4; 5; 6; 7]]) =
      Some (mkSystem f'
              [mkThread [] Idle
                 [ Pushed 1 FIFO_STATUS_SUCCESS; Pushed 2 FIFO_STATUS_SUCCESS;
                   Pushed 3 FIFO_STATUS_SUCCESS; Pushed 4 FIFO_STATUS_SUCCESS;
                   Pushed 5 FIFO_STATUS_SUCCESS; Pushed 6 FIFO_STATUS_FULL;
                   Pushed 7 FIFO_STATUS_FULL ]],
            [ Pushed 1 FIFO_STATUS_SUCCESS; Pushed 2 FIFO_STATUS_SUCCESS;
              Pushed 3 FIFO_STATUS_SUCCESS; Pushed 4 FIFO_STATUS_SUCCESS;
              Pushed 5 FIFO_STATUS_SUCCESS; Pushed 6 FIFO_STATUS_FULL;
              Pushed 7 FIFO_STATUS_FULL ]) /\
    contents f' = [1; 2; 3; 4; 5] /\
    population f' = 5.
Proof.
  split; [reflexivity|].
  exact (fill_to_capacity FIFO_EXAMPLE_MAX_CAPACITY rig_capacity_range
           rig_stale [1; 2; 3; 4; 5; 6; 7] eq_refl).
Defined.

Lemma pop_sleeps_until_push_rig :
  fifo_inv FIFO_EXAMPLE_MAX_CAPACITY int_test_fifo /\
  population int_test_fifo = 0 /\
  exists f2,
    run_turns FIFO_EXAMPLE_MAX_CAPACITY [1; 1; 1; 0; 1]%nat
              (mkSystem int_test_fifo [spawn [CallPush 7]; spawn [CallPop 1000]]) =
      Some (mkSystem f2 [mkThread [] Idle [Pushed 7 FIFO_STATUS_SUCCESS];
                         mkThread [] Idle [Popped 7]],
            [Pushed 7 FIFO_STATUS_SUCCESS; Popped 7]) /\
    population f2 = 0.
Proof.
  split; [exact rig_inv|]. split; [reflexivity|].
  destruct (pop_sleeps_until_push FIFO_EXAMPLE_MAX_CAPACITY rig_capacity_range
              int_test_fifo 7 1000 2 rig_inv eq_refl)
    as (_ & f2 & Hrun & Hp & _).
  exists f2. split; [exact Hrun|exact Hp].
Defined.

Lemma race_loser_statuses_rig :
  fifo_wf FIFO_EXAMPLE_MAX_CAPACITY four_item_fifo /\
  mutex four_item_fifo = None /\
  population four_item_fifo = FIFO_EXAMPLE_MAX_CAPACITY - 1 /\
  exists g,
    run FIFO_EXAMPLE_MAX_CAPACITY preempted_schedule
        (two_producers four_item_fifo 5 6) =
      Some (mkSystem g [mkThread [] Idle [Pushed 5 FIFO_STATUS_PREEMPTED];
                        mkThread [] Idle [Pushed 6 FIFO_STATUS_SUCCESS]]) /\
    mutex g = None /\ population g = FIFO_EXAMPLE_MAX_CAPACITY.
Proof.
  split; [exact four_item_wf|]. split; [reflexivity|]. split; [reflexivity|].
  exact (proj1 (race_loser_statuses FIFO_EXAMPLE_MAX_CAPACITY rig_capacity_range
                  four_item_fifo 5 6 four_item_wf eq_refl eq_refl)).
Defined.

Lemma interleaving_is_safe_rig :
  Z.of_nat (length rig_stale) = FIFO_EXAMPLE_MAX_CAPACITY /\
  exists s',
    run FIFO_EXAMPLE_MAX_CAPACITY late_signal_schedule
        (boot rig_stale [[CallPush 7]; [CallPopTry 1000; CallPop 2000]]) =
      Some s' /\
    fifo_wf FIFO_EXAMPLE_MAX_CAPACITY (shared s').
Proof.
  split; [reflexivity|].
  destruct (interleaving_is_safe FIFO_EXAMPLE_MAX_CAPACITY rig_capacity_range
              rig_stale [[CallPush 7]; [CallPopTry 1000; CallPop 2000]]
              late_signal_schedule eq_refl)
    as (s' & Hrun & Hwf & _).
  exists s'. split; [exact Hrun|exact Hwf].
Defined.

Lemma blocked_thread_has_cause_rig :
  Z.of_nat (length rig_stale) = FIFO_EXAMPLE_MAX_CAPACITY /\
  exists s',
    run FIFO_EXAMPLE_MAX_CAPACITY [0; 0; 0; 1; 1; 1]%nat
        (boot rig_stale [[CallPush 7]; [CallPush 8]]) = Some s'.
Proof.
  split; [reflexivity|].
  destruct (blocked_thread_has_cause FIFO_EXAMPLE_MAX_CAPACITY
              rig_capacity_range rig_stale [[CallPush 7]; [CallPush 8]]
              [0; 0; 0; 1; 1; 1]%nat eq_refl)
    as (s' & Hrun & _).
  exists s'. exact Hrun.
Defined.
